(** * Envaridator: registration and validation of environment variables

    A shallow embedding of [src/index.ts] (classes [Envaridator], [Envar]
    and [Rule]) and the properties of its validation report, its
    registration bookkeeping, the memoisation of [Envar] values and the
    two description printers.

    JavaScript objects that are mutated and shared (the [Envar] returned by
    [register] is the very object kept in [registeredVariables]) live in an
    explicit store and are named by their address.  Exceptions are
    completion records; a thrown value is represented by its [message],
    the only part of it the program ever reads.

    The functions supplied by the caller are the collaborators of the
    program: a validator is a function of the string (or [undefined]) it is
    given, a check is a function of the environment it runs in, and
    [process.env] is a map from names to strings that the caller may
    replace between calls.  Every lookup in [process.env] and every call of
    a validator or a check is recorded in an event log, so that "is not
    evaluated again" is a statement about the store. *)

From Stdlib Require Import Ascii.
From stdpp Require Import base option list numbers strings sorting.

Local Open Scope Z_scope.
Local Open Scope nat_scope.

(** ** Strings and arrays of strings *)

(** The line feed written ['\n'] in the source. *)
Definition nl : string := String "010"%char "".

(** [Array.prototype.join] on an array of strings. *)
Fixpoint join (sep : string) (xs : list string) : string :=
  match xs with
  | [] => ""
  | x :: rest =>
      match rest with
      | [] => x
      | _ :: _ => x +:+ sep +:+ join sep rest
      end
  end.

(** [s.split(sep)] for a one-character separator: the pieces between the
    separators, used to speak about the lines of a printed text. *)
Fixpoint split_go (sep : ascii) (cur : string) (s : string) : list string :=
  match s with
  | "" => [String.rev cur]
  | String c rest =>
      if decide (c = sep) then String.rev cur :: split_go sep "" rest
      else split_go sep (String c cur) rest
  end.

Definition lines (s : string) : list string := split_go "010"%char "" s.

(** [s.includes(c)] for a character [c]. *)
Fixpoint has_char (c : ascii) (s : string) : bool :=
  match s with
  | "" => false
  | String c' rest => bool_decide (c' = c) || has_char c rest
  end.

(** The truthiness of a string: [if (result)] is taken unless [result] is
    the empty string. *)
Definition truthy (s : string) : bool :=
  match s with "" => false | String _ _ => true end.

(** ** Plain objects used as dictionaries

    [registeredVariables] starts as the literal [{}]: an ordinary object
    whose prototype is [Object.prototype].  Its own properties are kept in
    creation order; the values are addresses of [Envar] objects. *)

Definition JSObject : Type := list (string * nat).

(** The properties every ordinary object inherits from [Object.prototype]
    (ECMA-262, sections 20.1.3 and B.2.2); each of them holds a function,
    and the accessor [__proto__] reads as the prototype object. *)
Definition Object_prototype : list string :=
  [ "constructor"; "hasOwnProperty"; "isPrototypeOf"; "propertyIsEnumerable";
    "toLocaleString"; "toString"; "valueOf"; "__proto__";
    "__defineGetter__"; "__defineSetter__"; "__lookupGetter__";
    "__lookupSetter__" ].

(** What [obj[name]] evaluates to. *)
Inductive PropertyValue : Type :=
  | Own (address : nat)     (* an own property: the stored [Envar] *)
  | Inherited               (* found on [Object.prototype]: not an [Envar] *)
  | Undefined.              (* [undefined] *)

Fixpoint lookup_own (obj : JSObject) (name : string) : option nat :=
  match obj with
  | [] => None
  | (k, a) :: rest => if decide (k = name) then Some a else lookup_own rest name
  end.

Definition obj_get (obj : JSObject) (name : string) : PropertyValue :=
  match lookup_own obj name with
  | Some a => Own a
  | None => if decide (name ∈ Object_prototype) then Inherited else Undefined
  end.

(** [v != null]: false for [undefined] (and [null]) only. *)
Definition not_null (v : PropertyValue) : bool :=
  match v with
  | Own _ | Inherited => true
  | Undefined => false
  end.

Fixpoint replace_own (obj : JSObject) (name : string) (a : nat) : JSObject :=
  match obj with
  | [] => []
  | (k, b) :: rest =>
      if decide (k = name) then (k, a) :: rest
      else (k, b) :: replace_own rest name a
  end.

(** [obj[name] = a].  An existing own property keeps its place; a new one is
    created last.  Assigning to [__proto__] runs the inherited setter and
    creates no own property. *)
Definition obj_set (obj : JSObject) (name : string) (a : nat) : JSObject :=
  if decide (name = "__proto__") then obj
  else match lookup_own obj name with
       | Some _ => replace_own obj name a
       | None => obj ++ [(name, a)]
       end.

(** *** The order of [Object.keys]

    Own keys that are array indices (canonical decimal numerals below
    [2^32 - 1]) come first, in ascending numeric order; all other keys
    follow in the order in which they were created (ECMA-262,
    OrdinaryOwnPropertyKeys). *)

Definition digit (c : ascii) : option N :=
  let n := N_of_ascii c in
  if (48 <=? n)%N && (n <=? 57)%N then Some (n - 48)%N else None.

Fixpoint digits_value (s : string) (acc : N) : option N :=
  match s with
  | "" => Some acc
  | String c rest =>
      match digit c with
      | Some d => digits_value rest (10 * acc + d)%N
      | None => None
      end
  end.

Definition array_index (s : string) : option N :=
  match s with
  | "" => None
  | String c rest =>
      if bool_decide (c = "0"%char) && bool_decide (rest ≠ "") then None
      else match digits_value s 0%N with
           | Some v => if (v <? 2 ^ 32 - 1)%N then Some v else None
           | None => None
           end
  end.

Fixpoint insert_index (x : N * string) (l : list (N * string)) : list (N * string) :=
  match l with
  | [] => [x]
  | y :: rest =>
      if (x.1 <=? y.1)%N then x :: y :: rest else y :: insert_index x rest
  end.

Definition sort_indices (l : list (N * string)) : list (N * string) :=
  foldr insert_index [] l.

Definition index_keys (ks : list string) : list (N * string) :=
  omap (fun k => (fun i => (i, k)) <$> array_index k) ks.

Definition named_keys (ks : list string) : list string :=
  filter (fun k => array_index k = None) ks.

Definition own_keys (obj : JSObject) : list string := obj.*1.

Definition Object_keys (obj : JSObject) : list string :=
  (sort_indices (index_keys (own_keys obj))).*2 ++ named_keys (own_keys obj).

(** ** Sorting

    [Array.prototype.sort(comparefn)] is stable, and for a consistent
    [comparefn] its result is determined: the stable arrangement in which
    no element compares greater than a later one. *)

Section Sort.
Context {A : Type} (comparefn : A → A → Z).

Fixpoint sort_insert (x : A) (l : list A) : list A :=
  match l with
  | [] => [x]
  | y :: rest =>
      if (comparefn x y <=? 0)%Z then x :: y :: rest
      else y :: sort_insert x rest
  end.

Definition sort (l : list A) : list A := foldr sort_insert [] l.
End Sort.

(** ** Completion records *)

Inductive Completion (A : Type) : Type :=
  | Normal (a : A)
  | Throw (message : string).
Arguments Normal {A} a.
Arguments Throw {A} message.

(** What the outside world can observe of a run: reads of [process.env]
    and calls of the functions supplied by the caller. *)
Inductive Event : Type :=
  | EnvLookup (name : string)
  | ValidatorCall (name : string) (arg : option string)
  | CheckCall (description : string).

(** [process.env]: a name is bound to a string or is absent. *)
Definition Env : Type := string → option string.

(** ** Computations: state and exceptions

    A computation runs in a store and ends normally with a result or
    abruptly with a thrown message; the store it leaves is kept in both
    cases, as assignments made before a [throw] are. *)

Definition M (St A : Type) : Type := St → Completion A * St.

Definition ret {St A} (a : A) : M St A := fun s => (Normal a, s).

Definition throw {St A} (message : string) : M St A :=
  fun s => (Throw message, s).

Definition bind {St A B} (m : M St A) (k : A → M St B) : M St B :=
  fun s =>
    match m s with
    | (Normal a, s') => k a s'
    | (Throw message, s') => (Throw message, s')
    end.

(** [try { m } catch (error) { handler(error.message) }] *)
Definition try_catch {St A} (m : M St A) (handler : string → M St A) : M St A :=
  fun s =>
    match m s with
    | (Normal a, s') => (Normal a, s')
    | (Throw message, s') => handler message s'
    end.

Definition gets {St A} (f : St → A) : M St A := fun s => (Normal (f s), s).

Definition modify {St} (f : St → St) : M St unit := fun s => (Normal tt, f s).

Notation "'let*' x := m 'in' k" := (bind m (fun x => k))
  (at level 10, x name, m at level 100, k at level 200, only parsing).
Notation "m >> k" := (bind m (fun _ => k))
  (at level 100, k at level 200, right associativity, only parsing).

(** [xs.forEach(x => ...)] where the callback updates a captured local
    variable [acc]; an exception escaping the callback ends the loop. *)
Fixpoint forEach {St A B} (xs : list A) (f : A → B → M St B) (acc : B) : M St B :=
  match xs with
  | [] => ret acc
  | x :: rest => let* acc' := f x acc in forEach rest f acc'
  end.

(** [xs.map(x => ...)] *)
Fixpoint mapM {St A B} (f : A → M St B) (xs : list A) : M St (list B) :=
  match xs with
  | [] => ret []
  | x :: rest => let* y := f x in let* ys := mapM f rest in ret (y :: ys)
  end.

(** A computation keeps [P]: the store it leaves satisfies [P] whenever the
    store it starts in does.  With [P := eq s0] this says that the
    computation leaves [s0] as it found it. *)
Definition preserves {St A} (P : St → Prop) (m : M St A) : Prop :=
  ∀ s, P s → P (m s).2.

(** ** The store *)

Section Envaridator.
Context {T : Type}.

(** [type Validator<T> = (value: string | undefined) => T]; a validator
    returns the validated value or throws. *)
Definition Validator : Type := option string → Completion T.

(** [type PostValidator = () => void]; a check takes no argument and is
    taken to decide from the environment it runs in.  A check that reads
    [value] of an [Envar] would, like any other reader, look up, validate
    and fill the cache of an [Envar] not read before; the checks of this
    development do not read [Envar]s. *)
Definition PostValidator : Type := Env → Completion unit.

(** [private cache: { empty: true } | { value: T }] *)
Inductive Cache : Type :=
  | empty
  | value (v : T).

(** [class Envar<T>] *)
Record Envar : Type := {
  name : string;
  validator : Validator;
  description : string;
  cache : Cache
}.

(** [class Rule] *)
Record Rule : Type := {
  rule_description : string;
  rule_validator : PostValidator
}.

(** One [Envaridator] instance with the objects it refers to:
    [registeredVariables] and [postValidations] are its two fields,
    [envars] holds the [Envar] objects by address, [env] is [process.env],
    and [log] records the events so far. *)
Record Store : Type := {
  env : Env;
  envars : list Envar;
  registeredVariables : JSObject;
  postValidations : list Rule;
  log : list Event
}.

(** [new Envaridator()] in a world with no [Envar] yet. *)
Definition init (e : Env) : Store :=
  {| env := e; envars := []; registeredVariables := []; postValidations := [];
     log := [] |}.

Definition with_env (e : Env) (s : Store) : Store :=
  {| env := e; envars := envars s; registeredVariables := registeredVariables s;
     postValidations := postValidations s; log := log s |}.

Definition with_envars (h : list Envar) (s : Store) : Store :=
  {| env := env s; envars := h; registeredVariables := registeredVariables s;
     postValidations := postValidations s; log := log s |}.

Definition with_registeredVariables (o : JSObject) (s : Store) : Store :=
  {| env := env s; envars := envars s; registeredVariables := o;
     postValidations := postValidations s; log := log s |}.

Definition with_postValidations (r : list Rule) (s : Store) : Store :=
  {| env := env s; envars := envars s; registeredVariables := registeredVariables s;
     postValidations := r; log := log s |}.

Definition with_log (l : list Event) (s : Store) : Store :=
  {| env := env s; envars := envars s; registeredVariables := registeredVariables s;
     postValidations := postValidations s; log := l |}.

Definition with_cache (c : Cache) (e : Envar) : Envar :=
  {| name := name e; validator := validator e; description := description e;
     cache := c |}.

Definition emit (ev : Event) : M Store unit :=
  modify (fun s => with_log (log s ++ [ev]) s).

(** Following a reference to an [Envar].  References cannot dangle in
    JavaScript; the store invariant [wf] below excludes the second case. *)
Definition deref (a : nat) : M Store Envar :=
  fun s =>
    match envars s !! a with
    | Some e => (Normal e, s)
    | None => (Throw "TypeError: not an Envar", s)
    end.

(** ** class Envar *)

(** [new Envar(name, validator, description)]: a fresh object with
    [cache = { empty: true }]. *)
Definition new_Envar (n : string) (v : Validator) (d : string) : M Store nat :=
  fun s =>
    (Normal (length (envars s)),
     with_envars (envars s ++ [{| name := n; validator := v; description := d;
                                  cache := empty |}]) s).

(** [process.env[name]] *)
Definition process_env (n : string) : M Store (option string) :=
  emit (EnvLookup n) >> gets (fun s => env s n).

(** [this.validator(value)] *)
Definition call_validator (e : Envar) (arg : option string) : M Store T :=
  emit (ValidatorCall (name e) arg) >>
  match validator e arg with
  | Normal v => ret v
  | Throw message => throw message
  end.

(** [this.cache = c] *)
Definition set_cache (this : nat) (c : Cache) : M Store unit :=
  modify (fun s =>
    match envars s !! this with
    | Some e => with_envars (<[this := with_cache c e]> (envars s)) s
    | None => s
    end).

(** [private validate()]: when the cache is still [{ empty: true }] the
    environment is read and the validator called, and only the value it
    returns is stored; [this.cache.value] is then the stored value. *)
Definition Envar_validate (this : nat) : M Store T :=
  let* e := deref this in
  match cache e with
  | empty =>
      let* v := process_env (name e) in
      let* r := call_validator e v in
      set_cache this (value r) >>
      ret r
  | value v => ret v
  end.

(** [get value()] *)
Definition Envar_value (this : nat) : M Store T :=
  try_catch (Envar_validate this)
    (fun message =>
       let* e := deref this in
       throw (name e +:+ " - " +:+ message)).

(** [readonly description] *)
Definition Envar_description (this : nat) : M Store string :=
  let* e := deref this in ret (description e).

(** ** class Rule *)

(** [this.validator()] *)
Definition call_check (this : Rule) : M Store unit :=
  emit (CheckCall (rule_description this)) >>
  let* e := gets env in
  match rule_validator this e with
  | Normal _ => ret tt
  | Throw message => throw message
  end.

(** [validate()] *)
Definition Rule_validate (this : Rule) : M Store unit :=
  try_catch (call_check this) (fun message => throw message).

(** ** class Envaridator *)

(** [private variablesStatus(failedVariables)] *)
Definition variablesStatus (failedVariables : list string) : string :=
  let failedVariables :=
    ("The following environment variables are invalid:" +:+ nl) :: failedVariables in
  join nl failedVariables.

(** [private rulesStatus(failedRules)] *)
Definition rulesStatus (failedRules : list string) : string :=
  let failedRules :=
    ("The following validation rules are invalid:" +:+ nl) :: failedRules in
  join nl failedRules.

(** [register(name, validator, description)] *)
Definition register (n : string) (v : Validator) (d : string) : M Store nat :=
  let* obj := gets registeredVariables in
  if not_null (obj_get obj n) then
    throw ("Variable " +:+ n +:+ " already defined!")
  else
    let* envar := new_Envar n v d in
    modify (fun s => with_registeredVariables (obj_set (registeredVariables s) n envar) s) >>
    ret envar.

(** [registerPostValidation(description, validator)] *)
Definition registerPostValidation (d : string) (v : PostValidator) : M Store unit :=
  let rule := {| rule_description := d; rule_validator := v |} in
  modify (fun s => with_postValidations (postValidations s ++ [rule]) s).

(** [this.registeredVariables[name].value], the value being discarded.  A
    property found on [Object.prototype] is a function, whose [value] is
    [undefined]; reading [value] of [undefined] is a [TypeError]. *)
Definition registered_value (n : string) : M Store unit :=
  let* obj := gets registeredVariables in
  match obj_get obj n with
  | Own a => Envar_value a >> ret tt
  | Inherited => ret tt
  | Undefined => throw "TypeError: cannot read properties of undefined"
  end.

(** [this.registeredVariables[name].description] inside a template
    literal, where [undefined] prints as the word. *)
Definition registered_description (n : string) : M Store string :=
  let* obj := gets registeredVariables in
  match obj_get obj n with
  | Own a => Envar_description a
  | Inherited => ret "undefined"
  | Undefined => throw "TypeError: cannot read properties of undefined"
  end.

(** [validate()] *)
Definition validate : M Store unit :=
  let* obj := gets registeredVariables in
  let* failedVariables :=
    forEach (Object_keys obj)
      (fun n failedVariables =>
         try_catch (registered_value n >> ret failedVariables)
           (fun message => ret (failedVariables ++ [message])))
      [] in
  let* rules := gets postValidations in
  let* failedRules :=
    if (0 <? length rules)%nat then
      forEach rules
        (fun rule failedRules =>
           try_catch (Rule_validate rule >> ret failedRules)
             (fun message => ret (failedRules ++ [message])))
        []
    else ret [] in
  let result := "" in
  let result :=
    if (0 <? length failedVariables)%nat
    then result +:+ variablesStatus failedVariables else result in
  let result :=
    if (0 <? length failedRules)%nat
    then (result +:+ nl +:+ nl) +:+ rulesStatus failedRules else result in
  if truthy result then throw result else ret tt.

Section Describe.
(** [a.localeCompare(b)]: negative, zero or positive.  The collation is the
    host's (ECMA-402); the program only relies on it as a comparison. *)
Variable localeCompare : string → string → Z.

(** [describeAll()] *)
Definition describeAll : M Store string :=
  let* obj := gets registeredVariables in
  let* envars :=
    mapM (fun n => let* d := registered_description n in ret (n +:+ " - " +:+ d))
         (Object_keys obj) in
  let envars := sort localeCompare envars in
  let* rules := gets postValidations in
  let rules := sort localeCompare (map rule_description rules) in
  ret (join nl (envars ++ rules)).

(** The array [result] of [describeAllMarkdown()] before it is joined. *)
Definition describeAllMarkdown_result : M Store (list string) :=
  let* obj := gets registeredVariables in
  let* envars :=
    mapM (fun n =>
            let* d := registered_description n in
            ret ("**" +:+ n +:+ "** - " +:+ d))
         (Object_keys obj) in
  let envars := join nl (sort localeCompare envars) in
  let* rules := gets postValidations in
  let rules := join nl (sort localeCompare (map rule_description rules)) in
  let result := [] in
  let result :=
    if (0 <? String.length envars)%nat
    then result ++ ["#Variables"; envars] else result in
  let result :=
    if (0 <? String.length rules)%nat
    then result ++ ["#Post validation rules"; rules] else result in
  ret result.

(** [describeAllMarkdown()] *)
Definition describeAllMarkdown : M Store string :=
  let* result := describeAllMarkdown_result in
  ret (join nl result).

End Describe.

(** ** Driving a binding from outside *)

(** The caller changes [process.env]. *)
Definition set_env (ρ : Env) : M Store unit := modify (with_env ρ).

(** One guarded read [try { envar.value } catch ...] after the environment
    became [ρ]; the completion is returned as data. *)
Definition attempt (this : nat) (ρ : Env) : M Store (Completion T) :=
  set_env ρ >>
  try_catch (let* v := Envar_value this in ret (Normal v))
    (fun message => ret (Throw message)).

(** ** What a store holds *)

(** The names of the registered variables, in the order in which they were
    registered. *)
Definition registration_order (s : Store) : list string :=
  own_keys (registeredVariables s).

(** The [Envar] registered under a name. *)
Definition binding (s : Store) (n : string) : option Envar :=
  a ← lookup_own (registeredVariables s) n; envars s !! a.

(** What reading the value of [e] comes to in environment [ρ]. *)
Definition outcome (ρ : Env) (e : Envar) : Completion T :=
  match cache e with
  | value v => Normal v
  | empty => validator e (ρ (name e))
  end.

(** The object after that read. *)
Definition settle (ρ : Env) (e : Envar) : Envar :=
  match cache e with
  | value _ => e
  | empty =>
      match validator e (ρ (name e)) with
      | Normal v => with_cache (value v) e
      | Throw _ => e
      end
  end.

(** The events of that read. *)
Definition access_events (ρ : Env) (e : Envar) : list Event :=
  match cache e with
  | value _ => []
  | empty => [EnvLookup (name e); ValidatorCall (name e) (ρ (name e))]
  end.

(** The store after the value of the object [e] at [a] was read. *)
Definition after_access (a : nat) (e : Envar) (s : Store) : Store :=
  {| env := env s; envars := <[a := settle (env s) e]> (envars s);
     registeredVariables := registeredVariables s;
     postValidations := postValidations s;
     log := log s ++ access_events (env s) e |}.

(** The report entry of a binding whose read fails. *)
Definition variable_failure (ρ : Env) (e : Envar) : option string :=
  match outcome ρ e with
  | Normal _ => None
  | Throw msg => Some (name e +:+ " - " +:+ msg)
  end.

(** The entries of the failing bindings among the names [ns], in the order
    of [ns]. *)
Definition failing_variables (s : Store) (ns : list string) : list string :=
  omap (fun n => e ← binding s n; variable_failure (env s) e) ns.

(** The report entry of a rule whose check fails. *)
Definition rule_failure (ρ : Env) (r : Rule) : option string :=
  match rule_validator r ρ with
  | Normal _ => None
  | Throw msg => Some msg
  end.

Definition failing_rules (s : Store) : list string :=
  omap (rule_failure (env s)) (postValidations s).

(** The events of reading every binding named in [ns]. *)
Definition variables_events (s : Store) (ns : list string) : list Event :=
  flat_map (fun n => from_option (access_events (env s)) [] (binding s n)) ns.

(** The text built at the end of [validate()] from the two lists. *)
Definition report (failedVariables failedRules : list string) : string :=
  (match failedVariables with
   | [] => ""
   | _ :: _ => variablesStatus failedVariables
   end) +:+
  (match failedRules with
   | [] => ""
   | _ :: _ => nl +:+ nl +:+ rulesStatus failedRules
   end).

(** [sub] occurs in [s]. *)
Definition occurs_in (sub s : string) : Prop :=
  ∃ before after, s = before +:+ sub +:+ after.

(** The lines the description printers start from. *)
Definition variable_lines (s : Store) : list string :=
  omap (fun n => (fun e => n +:+ " - " +:+ description e) <$> binding s n)
       (registration_order s).

Definition variable_lines_markdown (s : Store) : list string :=
  omap (fun n => (fun e => "**" +:+ n +:+ "** - " +:+ description e) <$> binding s n)
       (Object_keys (registeredVariables s)).

Definition rule_lines (s : Store) : list string :=
  map rule_description (postValidations s).

(** *** The stores a program can reach

    What a caller can do with an [Envaridator], the [Envar]s it handed out
    and the environment. *)
Inductive Call : Type :=
  | CallRegister (n : string) (v : Validator) (d : string)
  | CallRegisterPostValidation (d : string) (c : PostValidator)
  | CallValidate
  | CallDescribeAll (localeCompare : string → string → Z)
  | CallDescribeAllMarkdown (localeCompare : string → string → Z)
  | CallNewEnvar (n : string) (v : Validator) (d : string)
  | CallValue (a : nat)
  | CallSetEnv (ρ : Env).

(** The store after a call, whether it returned or threw. *)
Definition call (c : Call) (s : Store) : Store :=
  match c with
  | CallRegister n v d => (register n v d s).2
  | CallRegisterPostValidation d c => (registerPostValidation d c s).2
  | CallValidate => (validate s).2
  | CallDescribeAll cmp => (describeAll cmp s).2
  | CallDescribeAllMarkdown cmp => (describeAllMarkdown cmp s).2
  | CallNewEnvar n v d => (new_Envar n v d s).2
  | CallValue a => (Envar_value a s).2
  | CallSetEnv ρ => (set_env ρ s).2
  end.

Definition reachable (s : Store) : Prop :=
  ∃ ρ calls, s = foldl (fun s c => call c s) (init ρ) calls.

(** *** The store invariant

    The names under which [Envar]s are registered are pairwise different,
    and each is the [name] of the object it refers to. *)
Definition wf (s : Store) : Prop :=
  NoDup (registration_order s) ∧
  Forall (fun ka => name <$> envars s !! ka.2 = Some ka.1) (registeredVariables s).

#[global] Instance wf_dec (s : Store) : Decision (wf s).
Proof. unfold wf. apply _. Defined.

End Envaridator.

(** A comparison function is consistent when it is total and transitive. *)
Definition consistent (comparefn : string → string → Z) : Prop :=
  (∀ a b, (comparefn a b ≤ 0)%Z ∨ (comparefn b a ≤ 0)%Z) ∧
  (∀ a b c, (comparefn a b ≤ 0)%Z → (comparefn b c ≤ 0)%Z → (comparefn a c ≤ 0)%Z).

(** *** The comparison of the hosts on letters

    [a.localeCompare(b)] follows the collation of the host (ECMA-402).
    With the default collation, strings of ASCII letters are compared
    letter by letter without regard to case, and strings that are equal in
    this way are compared by case, position by position, lower case first:
    [a], [A], [b], [B] is ascending.  The definition below is this
    comparison; on other characters, which the example does not use, it
    goes by code. *)

Definition primary_weight (c : ascii) : N :=
  let n := N_of_ascii c in
  if (65 <=? n)%N && (n <=? 90)%N then (n + 32)%N else n.

Definition case_weight (c : ascii) : N :=
  let n := N_of_ascii c in
  if (65 <=? n)%N && (n <=? 90)%N then 1%N else 0%N.

Fixpoint string_weights (w : ascii → N) (s : string) : list N :=
  match s with
  | "" => []
  | String c rest => w c :: string_weights w rest
  end.

Fixpoint lex_compare (k1 k2 : list N) : comparison :=
  match k1, k2 with
  | [], [] => Eq
  | [], _ :: _ => Lt
  | _ :: _, [] => Gt
  | x :: k1', y :: k2' =>
      match (x ?= y)%N with
      | Eq => lex_compare k1' k2'
      | c => c
      end
  end.

Definition collate (a b : string) : comparison :=
  match lex_compare (string_weights primary_weight a)
                    (string_weights primary_weight b) with
  | Eq => lex_compare (string_weights case_weight a)
                      (string_weights case_weight b)
  | c => c
  end.

Definition localeCompare_letters (a b : string) : Z :=
  match collate a b with
  | Lt => (-1)%Z
  | Eq => 0%Z
  | Gt => 1%Z
  end.

(** The store [s'] continues [s]: every registered name refers to the
    object it referred to, the registered names and the rules of [s] are
    the first ones of [s'], and every [Envar] of [s] is still there with
    its [readonly] fields and, once it holds a value, that value. *)
Definition extends {T} (s s' : @Store T) : Prop :=
  (∀ n a, lookup_own (registeredVariables s) n = Some a →
          lookup_own (registeredVariables s') n = Some a) ∧
  registration_order s `prefix_of` registration_order s' ∧
  postValidations s `prefix_of` postValidations s' ∧
  (∀ a e, envars s !! a = Some e →
     ∃ e', envars s' !! a = Some e' ∧
           name e' = name e ∧ validator e' = validator e ∧
           description e' = description e ∧
           (∀ v, cache e = value v → cache e' = value v)).

(** ** Example stores *)

(** Comparison of strings by code units. *)
Definition compare_code_units (a b : string) : Z :=
  match String.compare a b with
  | Lt => (-1)%Z
  | Eq => 0%Z
  | Gt => 1%Z
  end.

(** The store a computation leaves. *)
Definition exec {St A} (m : M St A) (s : St) : St := (m s).2.

(** The validators of the README: an https-only URL and a required string. *)
Definition url_validator : @Validator string :=
  fun v =>
    match v with
    | Some "https://google.com" => Normal "https://google.com"
    | Some _ => Throw "Invalid protocol: https:"
    | None => Throw "value is null or undefined"
    end.

Definition str_validator : @Validator string :=
  fun v =>
    match v with
    | Some x => Normal x
    | None => Throw "value is null or undefined"
    end.

Definition readme_env : Env :=
  fun n =>
    if decide (n = "CORRECT_URL") then Some "https://google.com"
    else if decide (n = "WRONG_URL") then Some "htttps://google.com"
    else if decide (n = "SOME_VARIABLE") then Some "I exist!"
    else if decide (n = "SOME_OTHER_VARIABLE") then Some "I exist as well!"
    else None.

(** The five registrations of the README. *)
Definition readme : @Store string :=
  exec (register "SOME_OTHER_VARIABLE" str_validator "another string")
  (exec (register "SOME_VARIABLE" str_validator "a string")
  (exec (register "V@R1ABL3" str_validator "not set")
  (exec (register "WRONG_URL" url_validator "a wrong url")
  (exec (register "CORRECT_URL" url_validator "a url") (init readme_env))))).

(** Two variables whose names are numerals, registered as [2] then [1],
    neither of them set. *)
Definition numerals : @Store string :=
  exec (register "1" str_validator "one")
  (exec (register "2" str_validator "two") (init (fun _ => None))).

(** One rule whose description is the empty string, no variable. *)
Definition unnamed_rule : @Store string :=
  exec (registerPostValidation "" (fun _ => Normal tt)) (init (fun _ => None)).

(** The README registry with two rules, the second of which fails. *)
Definition readme_rules : @Store string :=
  exec (registerPostValidation "either URL is set"
          (fun ρ => match ρ "NO_URL" with
                    | Some _ => Normal tt
                    | None => Throw "NO_URL is missing"
                    end))
  (exec (registerPostValidation "an https URL" (fun _ => Normal tt)) readme).

(** Four rules described by one letter each, registered as [B], [b], [A],
    [a]; no variable. *)
Definition letters : @Store string :=
  exec (registerPostValidation "a" (fun _ => Normal tt))
  (exec (registerPostValidation "A" (fun _ => Normal tt))
  (exec (registerPostValidation "b" (fun _ => Normal tt))
  (exec (registerPostValidation "B" (fun _ => Normal tt))
     (init (fun _ => None))))).

(** One variable that is set and passes, and one rule that fails. *)
Definition rules_only : @Store string :=
  exec (registerPostValidation "never" (fun _ => Throw "never holds"))
  (exec (register "SOME_VARIABLE" str_validator "a string") (init readme_env)).

(** * Properties *)

(** ** Strings *)

Lemma string_app_cons (c : ascii) (s t : string) :
  String c s +:+ t = String c (s +:+ t).
Proof. reflexivity. Qed.

Lemma string_app_nil_r (s : string) : s +:+ "" = s.
Proof. induction s as [|c s IH]; [done|]. by rewrite string_app_cons, IH. Qed.

Lemma string_app_assoc (s1 s2 s3 : string) :
  (s1 +:+ s2) +:+ s3 = s1 +:+ s2 +:+ s3.
Proof.
  induction s1 as [|c s1 IH]; [done|]. by rewrite !string_app_cons, IH.
Qed.

Lemma string_app_length (s1 s2 : string) :
  String.length (s1 +:+ s2) = String.length s1 + String.length s2.
Proof.
  induction s1 as [|c s1 IH]; [done|]. rewrite string_app_cons. simpl.
  by rewrite IH.
Qed.

Lemma truthy_length (s : string) : truthy s = (0 <? String.length s).
Proof. by destruct s. Qed.

Lemma join_cons (sep x : string) (xs : list string) :
  xs ≠ [] → join sep (x :: xs) = x +:+ sep +:+ join sep xs.
Proof. by destruct xs. Qed.

Lemma occurs_in_join (sep x : string) (xs : list string) :
  x ∈ xs → occurs_in x (join sep xs).
Proof.
  induction 1 as [x xs|x y xs Hx IH].
  - destruct xs as [|z xs].
    + exists "", "". by rewrite string_app_nil_r.
    + exists "", (sep +:+ join sep (z :: xs)). done.
  - destruct IH as (before & after & Heq). destruct xs as [|z xs].
    { by apply elem_of_nil in Hx. }
    exists (y +:+ sep +:+ before), after.
    rewrite join_cons by done. rewrite Heq.
    by rewrite !string_app_assoc.
Qed.

Lemma occurs_in_app_l (x s t : string) : occurs_in x s → occurs_in x (s +:+ t).
Proof.
  intros (b & a & ->). exists b, (a +:+ t). by rewrite !string_app_assoc.
Qed.

Lemma occurs_in_app_r (x s t : string) : occurs_in x t → occurs_in x (s +:+ t).
Proof.
  intros (b & a & ->). exists (s +:+ b), a. by rewrite !string_app_assoc.
Qed.

Lemma rev_app_rev_app (x : string) : ∀ acc acc',
  String.rev_app (String.rev_app x acc) acc' = String.rev_app acc (x +:+ acc').
Proof.
  induction x as [|c x IH]; intros acc acc'; [done|]. simpl.
  by rewrite IH.
Qed.

Lemma string_rev_rev_app (x : string) : String.rev (String.rev_app x "") = x.
Proof.
  unfold String.rev. rewrite rev_app_rev_app. simpl. apply string_app_nil_r.
Qed.

Lemma split_go_line sep (x : string) : ∀ cur t,
  has_char sep x = false →
  split_go sep cur (x +:+ t) = split_go sep (String.rev_app x cur) t.
Proof.
  induction x as [|c x IH]; intros cur t Hx; [done|].
  simpl in Hx. apply orb_false_iff in Hx as [Hc Hx].
  apply bool_decide_eq_false in Hc.
  rewrite string_app_cons. simpl. rewrite decide_False by done. by apply IH.
Qed.

(** Splitting a text that was joined from lines gives the lines back. *)
Lemma lines_join (ls : list string) :
  ls ≠ [] →
  Forall (fun l => has_char "010"%char l = false) ls →
  lines (join nl ls) = ls.
Proof.
  intros Hne Hall. induction Hall as [|x ls Hx Hall IH]; [done|].
  unfold lines in *. destruct ls as [|y ls].
  - simpl. rewrite <- (string_app_nil_r x) at 1.
    rewrite split_go_line by done. simpl. by rewrite string_rev_rev_app.
  - rewrite join_cons by done. rewrite split_go_line by done.
    change (nl +:+ join nl (y :: ls)) with (String "010"%char (join nl (y :: ls))).
    simpl split_go. rewrite string_rev_rev_app. f_equal. by apply IH.
Qed.

(** ** Own properties and [Object.keys] *)

Lemma lookup_own_Some (obj : JSObject) n a :
  lookup_own obj n = Some a → (n, a) ∈ obj.
Proof.
  induction obj as [|[k b] obj IH]; simpl; [done|].
  case_decide; intros ?; simplify_eq; [left | right; auto].
Qed.

Lemma lookup_own_None (obj : JSObject) n :
  lookup_own obj n = None ↔ n ∉ own_keys obj.
Proof.
  unfold own_keys. induction obj as [|[k b] obj IH]; simpl.
  - split; [intros _; apply not_elem_of_nil | done].
  - rewrite not_elem_of_cons, <- IH. destruct (decide (k = n)); intuition congruence.
Qed.

Lemma lookup_own_is_Some (obj : JSObject) n :
  n ∈ own_keys obj → is_Some (lookup_own obj n).
Proof.
  intros Hin. destruct (lookup_own obj n) eqn:E; [eauto|].
  by apply lookup_own_None in E.
Qed.

Lemma lookup_own_app_fresh (obj : JSObject) n a k :
  lookup_own (obj ++ [(n, a)]) k =
    match lookup_own obj k with
    | Some b => Some b
    | None => if decide (n = k) then Some a else None
    end.
Proof.
  induction obj as [|[k' b] obj IH]; simpl; [done|].
  by destruct (decide (k' = k)).
Qed.

Lemma insert_index_perm x l : insert_index x l ≡ₚ x :: l.
Proof.
  induction l as [|y l IH]; simpl; [done|].
  case_match; [done|]. rewrite IH. apply Permutation_swap.
Qed.

Lemma sort_indices_perm l : sort_indices l ≡ₚ l.
Proof.
  induction l as [|x l IH]; simpl; [done|].
  rewrite insert_index_perm. by rewrite IH.
Qed.

Lemma Object_keys_perm (obj : JSObject) : Object_keys obj ≡ₚ own_keys obj.
Proof.
  unfold Object_keys. rewrite sort_indices_perm.
  generalize (own_keys obj). intros ks. unfold index_keys, named_keys.
  induction ks as [|k ks IH]; simpl; [done|].
  rewrite filter_cons. destruct (array_index k) eqn:E; simpl.
  - constructor. exact IH.
  - rewrite <- Permutation_middle. constructor. exact IH.
Qed.

Lemma index_keys_named ks :
  Forall (fun n => array_index n = None) ks → index_keys ks = [].
Proof.
  unfold index_keys. induction 1 as [|k ks Hk _ IH]; simpl; [done|].
  by rewrite Hk.
Qed.

Lemma named_keys_named ks :
  Forall (fun n => array_index n = None) ks → named_keys ks = ks.
Proof.
  unfold named_keys. induction 1 as [|k ks Hk _ IH]; [done|].
  rewrite filter_cons, decide_True by done. by rewrite IH.
Qed.

Lemma Object_keys_named (obj : JSObject) :
  Forall (fun n => array_index n = None) (own_keys obj) →
  Object_keys obj = own_keys obj.
Proof.
  intros H. unfold Object_keys.
  by rewrite index_keys_named, named_keys_named.
Qed.

(** ** Sorting *)

Section SortFacts.
Context {A : Type} (comparefn : A → A → Z).

Lemma sort_insert_perm x l : sort_insert comparefn x l ≡ₚ x :: l.
Proof.
  induction l as [|y l IH]; simpl; [done|].
  case_match; [done|]. rewrite IH. apply Permutation_swap.
Qed.

Lemma sort_perm l : sort comparefn l ≡ₚ l.
Proof.
  induction l as [|x l IH]; simpl; [done|].
  rewrite sort_insert_perm. by rewrite IH.
Qed.

Lemma sort_length l : length (sort comparefn l) = length l.
Proof. by rewrite sort_perm. Qed.

Lemma sort_singleton x : sort comparefn [x] = [x].
Proof. done. Qed.

Hypothesis total : ∀ a b, (comparefn a b ≤ 0)%Z ∨ (comparefn b a ≤ 0)%Z.
Hypothesis trans : ∀ a b c,
  (comparefn a b ≤ 0)%Z → (comparefn b c ≤ 0)%Z → (comparefn a c ≤ 0)%Z.

Lemma sort_insert_sorted x l :
  StronglySorted (fun a b => (comparefn a b ≤ 0)%Z) l →
  StronglySorted (fun a b => (comparefn a b ≤ 0)%Z) (sort_insert comparefn x l).
Proof.
  induction 1 as [|y l Hl IH Hy]; simpl.
  - repeat constructor.
  - destruct (Z.leb_spec (comparefn x y) 0) as [Hxy|Hxy].
    + constructor; [by constructor|].
      constructor; [done|]. eapply Forall_impl; [exact Hy|].
      intros z Hz. by eapply trans.
    + constructor; [done|]. rewrite sort_insert_perm.
      constructor; [|done]. destruct (total x y); [lia|done].
Qed.

Lemma sort_sorted l :
  StronglySorted (fun a b => (comparefn a b ≤ 0)%Z) (sort comparefn l).
Proof.
  induction l as [|x l IH]; simpl; [constructor|].
  by apply sort_insert_sorted.
Qed.

End SortFacts.

Lemma StronglySorted_weaken {A} (R R' : A → A → Prop) (l : list A) :
  (∀ x y, R x y → R' x y) → StronglySorted R l → StronglySorted R' l.
Proof.
  intros HR. induction 1 as [|x l _ IH Hx]; constructor; [done|].
  eapply Forall_impl; [exact Hx|]. intros y. apply HR.
Qed.

(** ** The comparison of the hosts on letters is consistent *)

Lemma lex_compare_antisym k1 : ∀ k2,
  lex_compare k2 k1 = CompOpp (lex_compare k1 k2).
Proof.
  induction k1 as [|x k1 IH]; intros [|y k2]; simpl; try done.
  rewrite (N.compare_antisym x y). destruct (x ?= y)%N; simpl; auto.
Qed.

Lemma lex_compare_eq k1 : ∀ k2, lex_compare k1 k2 = Eq → k1 = k2.
Proof.
  induction k1 as [|x k1 IH]; intros [|y k2]; simpl; try done.
  destruct (x ?= y)%N eqn:Hxy; try done.
  apply N.compare_eq in Hxy as ->. intros ?. f_equal. auto.
Qed.

Lemma lex_compare_le_trans k1 : ∀ k2 k3,
  lex_compare k1 k2 ≠ Gt → lex_compare k2 k3 ≠ Gt → lex_compare k1 k3 ≠ Gt.
Proof.
  induction k1 as [|x k1 IH]; intros [|y k2] [|z k3]; simpl; try done.
  destruct (N.compare_spec x y) as [->|Hxy|Hxy]; [| |done].
  - destruct (N.compare_spec y z) as [->|Hyz|Hyz]; [|done|done]. apply IH.
  - intros _. destruct (N.compare_spec y z) as [->|Hyz|Hyz]; [| |done]; intros _.
    + by rewrite (proj2 (N.compare_lt_iff _ _) Hxy).
    + assert (x < z)%N as Hxz by lia.
      by rewrite (proj2 (N.compare_lt_iff _ _) Hxz).
Qed.

Lemma collate_antisym a b : collate b a = CompOpp (collate a b).
Proof.
  unfold collate. rewrite (lex_compare_antisym (string_weights primary_weight a)).
  destruct (lex_compare (string_weights primary_weight a) _); simpl; [|done..].
  apply lex_compare_antisym.
Qed.

Lemma collate_le_trans a b c :
  collate a b ≠ Gt → collate b c ≠ Gt → collate a c ≠ Gt.
Proof.
  unfold collate.
  pose proof (lex_compare_le_trans (string_weights primary_weight a)
                (string_weights primary_weight b)
                (string_weights primary_weight c)) as Hp.
  destruct (lex_compare (string_weights primary_weight a)
              (string_weights primary_weight b)) eqn:Hab; [| |done].
  - apply lex_compare_eq in Hab. rewrite Hab.
    destruct (lex_compare (string_weights primary_weight b)
                (string_weights primary_weight c)); [|done..].
    apply lex_compare_le_trans.
  - intros _.
    destruct (lex_compare (string_weights primary_weight b)
                (string_weights primary_weight c)) eqn:Hbc; [| |done]; intros _.
    + apply lex_compare_eq in Hbc. by rewrite <- Hbc, Hab.
    + destruct (lex_compare (string_weights primary_weight a)
                  (string_weights primary_weight c)) eqn:Hac; [| done |].
      * apply lex_compare_eq in Hac. rewrite <- Hac in Hbc.
        rewrite lex_compare_antisym, Hab in Hbc. done.
      * exfalso. by apply Hp.
Qed.

Lemma localeCompare_letters_le a b :
  (localeCompare_letters a b ≤ 0)%Z ↔ collate a b ≠ Gt.
Proof.
  unfold localeCompare_letters. destruct (collate a b); split; (done || lia).
Qed.

Lemma localeCompare_letters_consistent : consistent localeCompare_letters.
Proof.
  split.
  - intros a b. rewrite !localeCompare_letters_le, (collate_antisym a b).
    destruct (collate a b); simpl; auto.
  - intros a b c. rewrite !localeCompare_letters_le. apply collate_le_trans.
Qed.

(** ** Reading a binding *)

Section Properties.
Context {T : Type}.
Implicit Types (s : @Store T) (e : @Envar T) (a : nat) (ρ : Env) (r : Rule).
Implicit Types (n : string) (ns : list string).

Lemma Envar_value_spec s a e :
  envars s !! a = Some e →
  Envar_value a s =
    (match outcome (env s) e with
     | Normal v => Normal v
     | Throw msg => Throw (name e +:+ " - " +:+ msg)
     end, after_access a e s).
Proof.
  intros Ha. destruct s as [ρ h o rs l]. simpl in Ha.
  unfold Envar_value, Envar_validate, try_catch, bind, deref, after_access,
    outcome, settle, access_events. simpl. rewrite Ha.
  destruct (cache e) eqn:Hc; simpl.
  - unfold call_validator, bind, emit, modify, with_log. simpl.
    destruct (validator e (ρ (name e))) as [v|msg] eqn:Hv; simpl.
    + unfold set_cache, modify, with_envars. simpl. rewrite Ha.
      by rewrite <- app_assoc.
    + rewrite Ha. simpl. unfold throw. rewrite list_insert_id by done.
      by rewrite <- app_assoc.
  - unfold ret. rewrite list_insert_id by done. by rewrite app_nil_r.
Qed.

Lemma binding_Some s n e :
  binding s n = Some e ↔
  ∃ a, lookup_own (registeredVariables s) n = Some a ∧ envars s !! a = Some e.
Proof.
  unfold binding. destruct (lookup_own _ n) as [a|]; simpl.
  - split; [eauto | by intros (? & [= <-] & ?)].
  - split; [done | by intros (? & ? & _)].
Qed.

Lemma wf_lookup s n a :
  wf s → lookup_own (registeredVariables s) n = Some a →
  ∃ e, envars s !! a = Some e ∧ name e = n.
Proof.
  intros [_ Hall] Hn%lookup_own_Some.
  rewrite Forall_forall in Hall. specialize (Hall _ Hn). simpl in Hall.
  destruct (envars s !! a) as [e|]; simplify_eq/=. eauto.
Qed.

Lemma wf_binding s n :
  wf s → n ∈ registration_order s → ∃ e, binding s n = Some e ∧ name e = n.
Proof.
  intros Hwf [a Ha]%lookup_own_is_Some.
  destruct (wf_lookup _ _ _ Hwf Ha) as (e & He & Hn).
  exists e. split; [|done]. apply binding_Some. eauto.
Qed.

Lemma binding_name s n e : wf s → binding s n = Some e → name e = n.
Proof.
  intros Hwf (a & Ha & He)%binding_Some.
  destruct (wf_lookup _ _ _ Hwf Ha) as (e' & He' & Hn). congruence.
Qed.

Lemma registered_value_spec s n a e :
  lookup_own (registeredVariables s) n = Some a →
  envars s !! a = Some e →
  registered_value n s =
    (match outcome (env s) e with
     | Normal _ => Normal tt
     | Throw msg => Throw (name e +:+ " - " +:+ msg)
     end, after_access a e s).
Proof.
  intros Hn Ha. unfold registered_value, bind, gets, obj_get. rewrite Hn.
  rewrite (Envar_value_spec _ _ _ Ha). by destruct (outcome _ e).
Qed.

Lemma registered_description_spec s n e :
  binding s n = Some e →
  registered_description n s = (Normal (description e), s).
Proof.
  intros (a & Hn & Ha)%binding_Some.
  unfold registered_description, bind, gets, obj_get. rewrite Hn.
  unfold Envar_description, bind, deref. by rewrite Ha.
Qed.

(** ** The two loops of [validate()] *)

Lemma settle_name ρ e : name (settle ρ e) = name e.
Proof.
  unfold settle. destruct (cache e); [|done].
  by destruct (validator e (ρ (name e))).
Qed.

Lemma after_access_binding s a e n :
  envars s !! a = Some e →
  name <$> binding s n ≠ Some (name e) →
  binding (after_access a e s) n = binding s n.
Proof.
  intros Ha Hn. unfold binding, after_access in *. simpl.
  destruct (lookup_own _ n) as [b|]; simpl in *; [|done].
  destruct (decide (a = b)) as [<-|Hab].
  - exfalso. apply Hn. by rewrite Ha.
  - by rewrite list_lookup_insert_ne.
Qed.

Lemma failing_variables_ext s s' ns :
  env s' = env s →
  (∀ n, n ∈ ns → binding s' n = binding s n) →
  failing_variables s' ns = failing_variables s ns.
Proof.
  intros Hρ Hb. unfold failing_variables. apply list_omap_ext.
  induction ns as [|n ns IH]; constructor.
  - rewrite Hρ, Hb by left. done.
  - apply IH. intros ??. apply Hb. by right.
Qed.

Lemma variables_events_ext s s' ns :
  env s' = env s →
  (∀ n, n ∈ ns → binding s' n = binding s n) →
  variables_events s' ns = variables_events s ns.
Proof.
  intros Hρ Hb. unfold variables_events.
  induction ns as [|n ns IH]; simpl; [done|].
  rewrite IH by (intros ??; apply Hb; by right).
  by rewrite Hρ, Hb by left.
Qed.

Lemma forEach_cons {St A B} (x : A) (xs : list A) (f : A → B → M St B) acc st :
  forEach (x :: xs) f acc st =
    match f x acc st with
    | (Normal acc', st') => forEach xs f acc' st'
    | (Throw message, st') => (Throw message, st')
    end.
Proof. reflexivity. Qed.

Lemma variable_step s n a e (acc : list string) :
  lookup_own (registeredVariables s) n = Some a →
  envars s !! a = Some e →
  try_catch (registered_value n >> ret acc)
    (fun message => ret (acc ++ [message])) s =
  (Normal (acc ++ option_list (variable_failure (env s) e)), after_access a e s).
Proof.
  intros Hl Ha. unfold try_catch, bind.
  rewrite (registered_value_spec _ _ _ _ Hl Ha). unfold variable_failure.
  destruct (outcome (env s) e); simpl; unfold ret; [|done].
  by rewrite app_nil_r.
Qed.

Lemma Rule_validate_spec r s :
  Rule_validate r s =
    (match rule_validator r (env s) with
     | Normal _ => Normal tt
     | Throw msg => Throw msg
     end, with_log (log s ++ [CheckCall (rule_description r)]) s).
Proof.
  unfold Rule_validate, try_catch, call_check, bind, emit, modify, gets. simpl.
  by destruct (rule_validator r (env s)).
Qed.

Lemma rule_step r s (acc : list string) :
  try_catch (Rule_validate r >> ret acc)
    (fun message => ret (acc ++ [message])) s =
  (Normal (acc ++ option_list (rule_failure (env s) r)),
   with_log (log s ++ [CheckCall (rule_description r)]) s).
Proof.
  unfold try_catch, bind. rewrite Rule_validate_spec. unfold rule_failure.
  destruct (rule_validator r (env s)); simpl; unfold ret; [|done].
  by rewrite app_nil_r.
Qed.

Lemma variables_loop ns : ∀ s acc,
  NoDup ns →
  (∀ n, n ∈ ns → ∃ e, binding s n = Some e ∧ name e = n) →
  ∃ s',
    forEach ns
      (fun n failedVariables =>
         try_catch (registered_value n >> ret failedVariables)
           (fun message => ret (failedVariables ++ [message])))
      acc s = (Normal (acc ++ failing_variables s ns), s') ∧
    env s' = env s ∧
    registeredVariables s' = registeredVariables s ∧
    postValidations s' = postValidations s ∧
    log s' = log s ++ variables_events s ns ∧
    (∀ n, (∀ e, binding s n = Some e → name e = n) →
          binding s' n =
            (if decide (n ∈ ns) then settle (env s) else id) <$> binding s n).
Proof.
  induction ns as [|n ns IH]; intros s acc Hnd Hns.
  - exists s. split_and!; [|done..| |].
    + simpl. unfold ret. by rewrite app_nil_r.
    + simpl. by rewrite app_nil_r.
    + intros n _. destruct (decide (n ∈ [])) as [Hin|_].
      * by apply elem_of_nil in Hin.
      * by destruct (binding s n).
  - apply NoDup_cons in Hnd as [Hn Hnd].
    destruct (Hns n) as (e & Hb & He); [by left|].
    pose proof Hb as (a & Hl & Ha)%binding_Some.
    assert (∀ n', n' ∈ ns → binding (after_access a e s) n' = binding s n')
      as Hsame.
    { intros n' Hn'. apply after_access_binding; [done|].
      destruct (Hns n') as (e' & -> & He'); [by right|]. simpl.
      intros [= Heq]. congruence. }
    destruct (IH (after_access a e s)
                (acc ++ option_list (variable_failure (env s) e)) Hnd)
      as (s' & Hrun & Hρ & Hobj & Hrules & Hlog & Hbind).
    { intros n' Hn'. rewrite Hsame by done. apply Hns. by right. }
    exists s'. split_and!; [|by rewrite Hρ|by rewrite Hobj|by rewrite Hrules| |].
    + rewrite forEach_cons. cbv beta.
      rewrite (variable_step _ _ _ _ _ Hl Ha), Hrun.
      unfold failing_variables at 2. simpl. rewrite Hb. simpl.
      fold (failing_variables s ns).
      rewrite (failing_variables_ext s) by done.
      destruct (variable_failure (env s) e); simpl; by rewrite <- app_assoc.
    + rewrite Hlog. simpl. rewrite Hb. simpl. rewrite <- app_assoc.
      by rewrite (variables_events_ext s).
    + intros n' Hname. destruct (decide (n' = n)) as [->|Hne].
      * assert (binding (after_access a e s) n = Some (settle (env s) e)) as Hb1.
        { apply binding_Some. exists a. split; [done|]. simpl.
          apply list_lookup_insert_eq. by eapply lookup_lt_Some. }
        rewrite Hbind, Hb1, Hb.
        -- rewrite decide_False by done. rewrite decide_True by left. done.
        -- intros e1. rewrite Hb1. intros [= <-]. by rewrite settle_name.
      * assert (binding (after_access a e s) n' = binding s n') as Hb1.
        { apply after_access_binding; [done|].
          destruct (binding s n') as [e'|] eqn:Hb'; [|done]. simpl.
          intros [= Heq]. rewrite (Hname e') in Heq by done. congruence. }
        rewrite Hbind, Hb1 by (by rewrite Hb1).
        destruct (decide (n' ∈ ns)) as [Hin|Hin].
        -- rewrite decide_True by (by right). done.
        -- rewrite decide_False; [done|]. by intros [?|?]%elem_of_cons.
Qed.

Lemma rules_loop rs : ∀ s acc,
  forEach rs
    (fun rule failedRules =>
       try_catch (Rule_validate rule >> ret failedRules)
         (fun message => ret (failedRules ++ [message])))
    acc s =
  (Normal (acc ++ omap (rule_failure (env s)) rs),
   with_log (log s ++ map (fun r => CheckCall (rule_description r)) rs) s).
Proof.
  induction rs as [|r rs IH]; intros s acc.
  - simpl. unfold ret. rewrite !app_nil_r. by destruct s.
  - rewrite forEach_cons. cbv beta. rewrite rule_step, IH. simpl.
    unfold with_log. simpl. rewrite <- !app_assoc. simpl.
    destruct (rule_failure (env s) r); simpl; by rewrite <- ?app_assoc.
Qed.

(** ** [validate()] as a whole *)

Lemma report_nil : report [] [] = "".
Proof. reflexivity. Qed.

Lemma report_truthy (fv fr : list string) :
  truthy (report fv fr) = false ↔ fv = [] ∧ fr = [].
Proof.
  split; [|by intros [-> ->]].
  destruct fv as [|x fv]; [|done]. destruct fr as [|y fr]; done.
Qed.

Lemma report_code (fv fr : list string) :
  (let result := "" in
   let result :=
     if (0 <? length fv)%nat then result +:+ variablesStatus fv else result in
   let result :=
     if (0 <? length fr)%nat
     then (result +:+ nl +:+ nl) +:+ rulesStatus fr else result in
   result) = report fv fr.
Proof.
  unfold report. destruct fv as [|x fv], fr as [|y fr]; simpl;
    rewrite ?string_app_nil_r, ?string_app_assoc; reflexivity.
Qed.

Lemma validate_spec s :
  wf s →
  let fv := failing_variables s (Object_keys (registeredVariables s)) in
  let fr := failing_rules s in
  ∃ s',
    validate s =
      (if truthy (report fv fr) then Throw (report fv fr) else Normal tt, s') ∧
    log s' =
      log s ++ variables_events s (Object_keys (registeredVariables s)) ++
      map (fun r => CheckCall (rule_description r)) (postValidations s) ∧
    (∀ n, binding s' n = settle (env s) <$> binding s n).
Proof.
  intros Hwf fv fr.
  destruct (variables_loop (Object_keys (registeredVariables s)) s [])
    as (s1 & Hrun & Hρ & Hobj & Hrules & Hlog & Hbind).
  { rewrite Object_keys_perm. apply Hwf. }
  { intros n Hn. apply wf_binding; [done|].
    by rewrite Object_keys_perm in Hn. }
  simpl in Hrun. fold fv in Hrun.
  assert (∃ s',
    (if (0 <? length (postValidations s1))%nat then
       forEach (postValidations s1)
         (fun rule failedRules =>
            try_catch (Rule_validate rule >> ret failedRules)
              (fun message => ret (failedRules ++ [message])))
         []
     else ret []) s1 = (Normal fr, s') ∧
    log s' = log s1 ++
      map (fun r => CheckCall (rule_description r)) (postValidations s) ∧
    (∀ n, binding s' n = binding s1 n))
    as (s2 & Hrun2 & Hlog2 & Hbind2).
  { subst fr. unfold failing_rules. rewrite Hrules, <- Hρ.
    destruct (postValidations s) as [|r rs] eqn:Hrs.
    - exists s1. simpl. by rewrite app_nil_r.
    - exists (with_log
                (log s1 ++ map (fun r => CheckCall (rule_description r)) (r :: rs))
                s1).
      split; [|done].
      change (0 <? length (r :: rs))%nat with true. cbv iota.
      by rewrite rules_loop. }
  exists s2. split_and!.
  - unfold validate. unfold bind at 1. unfold gets at 1. cbv beta iota.
    unfold bind at 1. rewrite Hrun.
    unfold bind at 1. unfold gets at 1. cbv beta iota.
    unfold bind at 1. rewrite Hrun2. cbv zeta.
    pose proof (report_code fv fr) as Hcode. cbv zeta in Hcode.
    rewrite Hcode. by destruct (truthy (report fv fr)).
  - rewrite Hlog2, Hlog. by rewrite <- app_assoc.
  - intros n. rewrite Hbind2, Hbind by (intros e; by apply binding_name).
    destruct (binding s n) as [e|] eqn:Hb; [|done].
    rewrite decide_True; [done|]. rewrite Object_keys_perm.
    apply binding_Some in Hb as (a & Ha & _).
    apply dec_stable. intros Hn. apply lookup_own_None in Hn. congruence.
Qed.

Lemma validate_result s :
  wf s →
  let fv := failing_variables s (Object_keys (registeredVariables s)) in
  let fr := failing_rules s in
  (validate s).1 = if truthy (report fv fr) then Throw (report fv fr) else Normal tt.
Proof.
  intros Hwf fv fr. destruct (validate_spec s Hwf) as (s' & -> & _). done.
Qed.

Lemma validate_bindings s n :
  wf s → binding (validate s).2 n = settle (env s) <$> binding s n.
Proof.
  intros Hwf. destruct (validate_spec s Hwf) as (s' & -> & _ & Hbind).
  apply Hbind.
Qed.

Lemma validate_log s :
  wf s →
  log (validate s).2 =
    log s ++ variables_events s (Object_keys (registeredVariables s)) ++
    map (fun r => CheckCall (rule_description r)) (postValidations s).
Proof.
  intros Hwf. destruct (validate_spec s Hwf) as (s' & -> & Hlog & _).
  exact Hlog.
Qed.

Lemma elem_of_failing_variables s entry :
  wf s →
  entry ∈ failing_variables s (Object_keys (registeredVariables s)) ↔
  ∃ n e msg, binding s n = Some e ∧ outcome (env s) e = Throw msg ∧
             entry = n +:+ " - " +:+ msg.
Proof.
  intros Hwf. unfold failing_variables. rewrite list_elem_of_omap. split.
  - intros (n & Hn & Hf). destruct (binding s n) as [e|] eqn:Hb; [|done].
    simpl in Hf. unfold variable_failure in Hf.
    destruct (outcome (env s) e) as [v|msg] eqn:Ho; simplify_eq.
    exists n, e, msg. by rewrite (binding_name _ _ _ Hwf Hb).
  - intros (n & e & msg & Hb & Ho & ->). exists n. split.
    + rewrite Object_keys_perm.
      apply binding_Some in Hb as (a & Ha & _).
      apply dec_stable. intros Hn. apply lookup_own_None in Hn. congruence.
    + rewrite Hb. simpl. unfold variable_failure. rewrite Ho.
      by rewrite (binding_name _ _ _ Hwf Hb).
Qed.

Lemma elem_of_failing_rules s entry :
  entry ∈ failing_rules s ↔
  ∃ r, r ∈ postValidations s ∧ rule_validator r (env s) = Throw entry.
Proof.
  unfold failing_rules. rewrite list_elem_of_omap. unfold rule_failure.
  split; intros (r & Hr & Hv); exists r; (split; [done|]).
  - destruct (rule_validator r (env s)); congruence.
  - by rewrite Hv.
Qed.

Lemma failing_rules_nil s :
  (∀ r, r ∈ postValidations s → rule_validator r (env s) = Normal tt) →
  failing_rules s = [].
Proof.
  intros Hok. destruct (failing_rules s) as [|m fr] eqn:E; [done|].
  assert (m ∈ failing_rules s) as (r & Hr & Hv)%elem_of_failing_rules.
  { rewrite E. left. }
  rewrite (Hok r Hr) in Hv. done.
Qed.

Lemma report_variables_only (fv : list string) :
  fv ≠ [] →
  report fv [] =
    "The following environment variables are invalid:" +:+ nl +:+ nl +:+
    join nl fv.
Proof.
  intros Hfv. unfold report. rewrite string_app_nil_r.
  destruct fv as [|x fv]; [done|]. unfold variablesStatus.
  rewrite join_cons by done. by rewrite string_app_assoc.
Qed.

Lemma report_rules_section (fv fr : list string) :
  fr ≠ [] →
  report fv fr =
    (match fv with [] => "" | _ :: _ => variablesStatus fv end) +:+
    nl +:+ nl +:+ "The following validation rules are invalid:" +:+ nl +:+ nl +:+
    join nl fr.
Proof.
  intros Hfr. unfold report. f_equal.
  destruct fr as [|x fr]; [done|]. unfold rulesStatus.
  rewrite join_cons by done. by rewrite !string_app_assoc.
Qed.

Lemma occurs_in_report (fv fr : list string) entry :
  entry ∈ fv ++ fr → occurs_in entry (report fv fr).
Proof.
  intros [Hin|Hin]%elem_of_app; unfold report.
  - apply occurs_in_app_l. destruct fv as [|x fv]; [by apply elem_of_nil in Hin|].
    unfold variablesStatus. apply occurs_in_join. by right.
  - apply occurs_in_app_r. destruct fr as [|x fr]; [by apply elem_of_nil in Hin|].
    do 2 apply occurs_in_app_r.
    unfold rulesStatus. apply occurs_in_join. by right.
Qed.

(** ** Memoisation *)

Lemma after_access_cached s a e v :
  envars s !! a = Some e → cache e = value v → after_access a e s = s.
Proof.
  intros Ha Hc. unfold after_access, settle, access_events. rewrite Hc.
  rewrite list_insert_id by done. rewrite app_nil_r. by destruct s.
Qed.

Lemma settle_cache ρ e v : outcome ρ e = Normal v → cache (settle ρ e) = value v.
Proof.
  unfold outcome, settle. destruct (cache e) eqn:Hc.
  - intros Hv. by rewrite Hv.
  - intros [= <-]. exact Hc.
Qed.

Lemma Envar_value_dangling s a :
  envars s !! a = None →
  Envar_value a s = (Throw "TypeError: not an Envar", s).
Proof.
  intros Ha. unfold Envar_value, Envar_validate, try_catch, bind, deref.
  rewrite Ha. simpl. by rewrite Ha.
Qed.

Lemma Envar_value_Normal s a v :
  (Envar_value a s).1 = Normal v →
  ∃ e, envars s !! a = Some e ∧ outcome (env s) e = Normal v ∧
       envars (Envar_value a s).2 !! a = Some (settle (env s) e).
Proof.
  destruct (envars s !! a) as [e|] eqn:Ha.
  - rewrite (Envar_value_spec _ _ _ Ha). simpl. intros Hv.
    exists e. split_and!; [done| |].
    + by destruct (outcome (env s) e); simplify_eq.
    + apply list_lookup_insert_eq. by eapply lookup_lt_Some.
  - by rewrite Envar_value_dangling.
Qed.

Lemma Envar_value_cached s a e v :
  envars s !! a = Some e → cache e = value v →
  Envar_value a s = (Normal v, s).
Proof.
  intros Ha Hc. rewrite (Envar_value_spec _ _ _ Ha).
  rewrite (after_access_cached _ _ _ _ Ha Hc). unfold outcome. by rewrite Hc.
Qed.

Lemma attempt_spec s a e ρ :
  envars s !! a = Some e →
  attempt a ρ s =
    (Normal (match outcome ρ e with
             | Normal v => Normal v
             | Throw msg => Throw (name e +:+ " - " +:+ msg)
             end), after_access a e (with_env ρ s)).
Proof.
  intros Ha. unfold attempt, set_env, modify, try_catch. unfold bind at 1.
  unfold bind. rewrite (Envar_value_spec (with_env ρ s) a e) by done. simpl.
  by destruct (outcome ρ e).
Qed.

Lemma mapM_cons {St A B} (f : A → M St B) x xs st :
  mapM f (x :: xs) st =
    match f x st with
    | (Normal y, st') =>
        match mapM f xs st' with
        | (Normal ys, st'') => (Normal (y :: ys), st'')
        | (Throw message, st'') => (Throw message, st'')
        end
    | (Throw message, st') => (Throw message, st')
    end.
Proof.
  simpl. unfold bind. destruct (f x st) as [[y|m] st']; [|done].
  by destruct (mapM f xs st') as [[ys|m] st''].
Qed.

Lemma attempts_cached a v ρs : ∀ s e,
  envars s !! a = Some e → cache e = value v →
  mapM (attempt a) ρs s =
    (Normal (replicate (length ρs) (Normal v)),
     match last ρs with Some ρ => with_env ρ s | None => s end).
Proof.
  induction ρs as [|ρ ρs IH]; intros s e Ha Hc; [done|].
  rewrite mapM_cons, (attempt_spec _ _ e) by done.
  rewrite (after_access_cached _ _ _ v) by done.
  rewrite (IH _ e) by done. unfold outcome. rewrite Hc. simpl.
  do 2 f_equal. destruct ρs as [|ρ' ρs]; [done|].
  rewrite !last_cons. by destruct (last ρs).
Qed.

Lemma attempts_failing a e ρs : ∀ s,
  envars s !! a = Some e → cache e = empty →
  Forall (fun ρ => ∃ msg, validator e (ρ (name e)) = Throw msg) ρs →
  ∃ s',
    mapM (attempt a) ρs s =
      (Normal (map (fun ρ =>
                 match validator e (ρ (name e)) with
                 | Normal v => Normal v
                 | Throw msg => Throw (name e +:+ " - " +:+ msg)
                 end) ρs), s') ∧
    envars s' = envars s ∧
    registeredVariables s' = registeredVariables s ∧
    postValidations s' = postValidations s ∧
    log s' = log s ++
      flat_map (fun ρ => [EnvLookup (name e); ValidatorCall (name e) (ρ (name e))]) ρs.
Proof.
  induction ρs as [|ρ ρs IH]; intros s Ha Hc Hfail.
  - exists s. simpl. by rewrite app_nil_r.
  - apply Forall_cons in Hfail as [[msg Hmsg] Hfail].
    assert (settle ρ e = e) as Hsettle.
    { unfold settle. by rewrite Hc, Hmsg. }
    destruct (IH (after_access a e (with_env ρ s))) as (s' & Hrun & He & Ho & Hr & Hl);
      [|done..|].
    { simpl. rewrite Hsettle. by rewrite list_insert_id. }
    exists s'. rewrite mapM_cons, (attempt_spec _ _ e), Hrun by done.
    split_and!; [|by rewrite He; simpl; rewrite Hsettle, list_insert_id|done|done|].
    + simpl. unfold outcome. by rewrite Hc.
    + rewrite Hl. simpl. unfold access_events. rewrite Hc.
      by rewrite <- app_assoc.
Qed.

(** ** Registration *)

Lemma register_taken s n v d :
  not_null (obj_get (registeredVariables s) n) = true →
  register n v d s = (Throw ("Variable " +:+ n +:+ " already defined!"), s).
Proof.
  intros Hn. unfold register. unfold bind at 1. unfold gets at 1. cbv beta iota.
  by rewrite Hn.
Qed.

Lemma register_duplicate s n v d :
  n ∈ registration_order s →
  register n v d s = (Throw ("Variable " +:+ n +:+ " already defined!"), s).
Proof.
  intros [a Ha]%lookup_own_is_Some. apply register_taken.
  unfold obj_get. by rewrite Ha.
Qed.

Lemma register_inherited s n v d :
  n ∈ Object_prototype →
  register n v d s = (Throw ("Variable " +:+ n +:+ " already defined!"), s).
Proof.
  intros Hn. apply register_taken. unfold obj_get.
  destruct (lookup_own _ n); [done|]. by rewrite decide_True.
Qed.

(** The store after a successful [register(n, v, d)]. *)
Lemma register_fresh s n v d :
  n ∉ registration_order s → n ∉ Object_prototype →
  register n v d s =
    (Normal (length (envars s)),
     {| env := env s;
        envars := envars s ++
          [{| name := n; validator := v; description := d; cache := empty |}];
        registeredVariables := registeredVariables s ++ [(n, length (envars s))];
        postValidations := postValidations s;
        log := log s |}).
Proof.
  intros Hn%lookup_own_None Hp. unfold register.
  unfold bind at 1. unfold gets at 1. cbv beta iota.
  unfold obj_get. rewrite Hn, decide_False by done. simpl.
  unfold bind, new_Envar, modify, ret, with_registeredVariables, with_envars.
  simpl. unfold obj_set. rewrite Hn, decide_False; [done|].
  intros ->. apply Hp. by apply (bool_decide_unpack _).
Qed.

Lemma register_outcome s n v d :
  (register n v d s).1 =
    if decide (n ∈ registration_order s ∨ n ∈ Object_prototype)
    then Throw ("Variable " +:+ n +:+ " already defined!")
    else Normal (length (envars s)).
Proof.
  case_decide as Hn.
  - destruct (decide (n ∈ registration_order s)).
    + by rewrite register_duplicate.
    + rewrite register_inherited; [done|]. by destruct Hn.
  - rewrite register_fresh; [done|..]; intros ?; apply Hn; auto.
Qed.

Lemma init_wf ρ : wf (@init T ρ).
Proof. split; [apply NoDup_nil_2 | constructor]. Qed.

Lemma register_wf s n v d : wf s → wf (register n v d s).2.
Proof.
  intros Hwf.
  destruct (decide (n ∈ registration_order s ∨ n ∈ Object_prototype)) as [Hn|Hn].
  - destruct (decide (n ∈ registration_order s)).
    + by rewrite register_duplicate.
    + rewrite register_inherited; [done|]. by destruct Hn.
  - rewrite register_fresh by (intros ?; apply Hn; auto).
    destruct Hwf as [Hnd Hall]. split; simpl.
    + unfold registration_order, own_keys in *. simpl. rewrite fmap_app. simpl.
      apply NoDup_app. split_and!; [done| |apply NoDup_singleton].
      intros k Hk ->%list_elem_of_singleton. apply Hn. by left.
    + apply Forall_app. split.
      * eapply Forall_impl; [exact Hall|]. intros [k a]. simpl.
        intros Hk. destruct (envars s !! a) as [e|] eqn:Ha; [|done].
        by rewrite (lookup_app_l_Some _ _ _ _ Ha).
      * constructor; [|constructor]. simpl.
        by rewrite lookup_app_r, Nat.sub_diag by lia.
Qed.

Lemma registerPostValidation_wf s d c : wf s → wf (registerPostValidation d c s).2.
Proof. done. Qed.

Lemma after_access_wf s a e : envars s !! a = Some e → wf s → wf (after_access a e s).
Proof.
  intros Ha [Hnd Hall]. split; [done|]. simpl.
  eapply Forall_impl; [exact Hall|]. intros [k b]. simpl. intros Hk.
  destruct (decide (a = b)) as [<-|Hab].
  - rewrite list_lookup_insert_eq by (by eapply lookup_lt_Some).
    simpl. rewrite settle_name. by rewrite Ha in Hk.
  - by rewrite list_lookup_insert_ne.
Qed.

Lemma Envar_value_wf s a : wf s → wf (Envar_value a s).2.
Proof.
  intros Hwf. destruct (envars s !! a) as [e|] eqn:Ha.
  - rewrite (Envar_value_spec _ _ _ Ha). by apply after_access_wf.
  - by rewrite Envar_value_dangling.
Qed.

(** ** Properties kept by a computation *)

Section Preserves.
Context {St : Type} (P : St → Prop).

Lemma preserves_ret {A} (a : A) : preserves P (ret a).
Proof. by intros s. Qed.

Lemma preserves_throw {A} message : preserves P (@throw St A message).
Proof. by intros s. Qed.

Lemma preserves_gets {A} (f : St → A) : preserves P (gets f).
Proof. by intros s. Qed.

Lemma preserves_bind {A B} (m : M St A) (k : A → M St B) :
  preserves P m → (∀ y : A, preserves P (k y)) → preserves P (bind m k).
Proof.
  intros Hm Hk s Hs. unfold bind. specialize (Hm s Hs).
  destruct (m s) as [[a|msg] s']; simpl in *; [by apply Hk | done].
Qed.

Lemma preserves_try_catch {A} (m : M St A) (h : string → M St A) :
  preserves P m → (∀ msg, preserves P (h msg)) → preserves P (try_catch m h).
Proof.
  intros Hm Hh s Hs. unfold try_catch. specialize (Hm s Hs).
  destruct (m s) as [[a|msg] s']; simpl in *; [done | by apply Hh].
Qed.

Lemma preserves_forEach {A B} (f : A → B → M St B) xs :
  (∀ x acc, preserves P (f x acc)) → ∀ acc, preserves P (forEach xs f acc).
Proof.
  intros Hf. induction xs as [|x xs IH]; intros acc; simpl.
  - apply preserves_ret.
  - apply preserves_bind; [apply Hf | apply IH].
Qed.

Lemma preserves_mapM {A B} (f : A → M St B) xs :
  (∀ x, preserves P (f x)) → preserves P (mapM f xs).
Proof.
  intros Hf. induction xs as [|x xs IH]; simpl.
  - apply preserves_ret.
  - apply preserves_bind; [apply Hf|]. intros y.
    apply preserves_bind; [apply IH|]. intros ys. apply preserves_ret.
Qed.

End Preserves.

Lemma registered_value_wf n : preserves (@wf T) (registered_value n).
Proof.
  apply preserves_bind; [apply preserves_gets|]. intros obj.
  destruct (obj_get obj n).
  - apply preserves_bind; [|intros; apply preserves_ret].
    intros s. apply Envar_value_wf.
  - apply preserves_ret.
  - apply preserves_throw.
Qed.

Lemma validate_wf s : wf s → wf (validate s).2.
Proof.
  revert s. change (preserves (@wf T) validate).
  apply preserves_bind; [apply preserves_gets|]. intros obj.
  apply preserves_bind.
  { apply preserves_forEach. intros n acc.
    apply preserves_try_catch; [|intros; apply preserves_ret].
    apply preserves_bind; [apply registered_value_wf|].
    intros; apply preserves_ret. }
  intros fv. apply preserves_bind; [apply preserves_gets|]. intros rules.
  apply preserves_bind.
  { destruct (0 <? length rules)%nat; [|apply preserves_ret].
    apply preserves_forEach. intros r acc.
    apply preserves_try_catch; [|intros; apply preserves_ret].
    apply preserves_bind; [|intros; apply preserves_ret].
    intros s Hs. rewrite Rule_validate_spec. exact Hs. }
  intros fr. cbv zeta. case_match; [apply preserves_throw | apply preserves_ret].
Qed.

(** ** The description printers *)

Lemma registered_description_pure n s0 :
  preserves (eq s0) (registered_description n).
Proof.
  apply preserves_bind; [apply preserves_gets|]. intros obj.
  destruct (obj_get obj n).
  - apply preserves_bind; [|intros; apply preserves_ret].
    intros s <-. unfold deref. by destruct (envars s0 !! address).
  - apply preserves_ret.
  - apply preserves_throw.
Qed.

Lemma describe_lines_pure (fmt : string → string → string) ns s0 :
  preserves (eq s0)
    (mapM (fun n => let* d := registered_description n in ret (fmt n d)) ns).
Proof.
  apply preserves_mapM. intros n.
  apply preserves_bind; [apply registered_description_pure|].
  intros; apply preserves_ret.
Qed.

Lemma describeAll_pure cmp s0 : preserves (eq s0) (describeAll cmp).
Proof.
  apply preserves_bind; [apply preserves_gets|]. intros obj.
  apply preserves_bind;
    [apply (describe_lines_pure (fun n d => n +:+ " - " +:+ d))|].
  intros ls. cbv zeta. apply preserves_bind; [apply preserves_gets|].
  intros; apply preserves_ret.
Qed.

Lemma describeAllMarkdown_result_pure cmp s0 :
  preserves (eq s0) (describeAllMarkdown_result cmp).
Proof.
  apply preserves_bind; [apply preserves_gets|]. intros obj.
  apply preserves_bind;
    [apply (describe_lines_pure (fun n d => "**" +:+ n +:+ "** - " +:+ d))|].
  intros ls. cbv zeta. apply preserves_bind; [apply preserves_gets|].
  intros; apply preserves_ret.
Qed.

Lemma describeAllMarkdown_pure cmp s0 : preserves (eq s0) (describeAllMarkdown cmp).
Proof.
  apply preserves_bind; [apply describeAllMarkdown_result_pure|].
  intros; apply preserves_ret.
Qed.

Lemma bind_Normal {St A B} (m : M St A) (k : A → M St B) st x st' :
  m st = (Normal x, st') → bind m k st = k x st'.
Proof. intros Hm. unfold bind. by rewrite Hm. Qed.

Lemma describe_lines (fmt : string → string → string) s ns :
  (∀ n, n ∈ ns → is_Some (binding s n)) →
  mapM (fun n => let* d := registered_description n in ret (fmt n d)) ns s =
    (Normal (omap (fun n => (fun e => fmt n (description e)) <$> binding s n) ns), s).
Proof.
  induction ns as [|n ns IH]; intros Hns; [done|].
  rewrite mapM_cons. destruct (Hns n) as [e He]; [by left|].
  cbv beta. rewrite (bind_Normal _ _ _ _ _ (registered_description_spec _ _ _ He)).
  unfold ret at 1. rewrite IH by (intros ??; apply Hns; by right).
  simpl. by rewrite He.
Qed.

Lemma wf_keys_bound s n :
  wf s → n ∈ Object_keys (registeredVariables s) → is_Some (binding s n).
Proof.
  intros Hwf Hn. rewrite Object_keys_perm in Hn.
  destruct (wf_binding s n Hwf Hn) as (e & -> & _). eauto.
Qed.

Lemma describeAll_spec cmp s :
  wf s →
  describeAll cmp s =
    (Normal (join nl
       (sort cmp
          (omap (fun n => (fun e => n +:+ " - " +:+ description e) <$> binding s n)
                (Object_keys (registeredVariables s))) ++
        sort cmp (rule_lines s))), s).
Proof.
  intros Hwf. unfold describeAll. unfold bind at 1. unfold gets at 1.
  cbv beta iota.
  erewrite bind_Normal;
    [|apply (describe_lines (fun n d => n +:+ " - " +:+ d));
      intros n; by apply wf_keys_bound].
  done.
Qed.

Lemma describeAllMarkdown_result_spec cmp s :
  wf s →
  describeAllMarkdown_result cmp s =
    (Normal
       (let envars := join nl (sort cmp (variable_lines_markdown s)) in
        let rules := join nl (sort cmp (rule_lines s)) in
        (if (0 <? String.length envars)%nat then ["#Variables"; envars] else []) ++
        (if (0 <? String.length rules)%nat
         then ["#Post validation rules"; rules] else [])), s).
Proof.
  intros Hwf. unfold describeAllMarkdown_result. unfold bind at 1.
  unfold gets at 1. cbv beta iota.
  erewrite bind_Normal;
    [|apply (describe_lines (fun n d => "**" +:+ n +:+ "** - " +:+ d));
      intros n; by apply wf_keys_bound].
  cbv zeta. unfold bind, gets, ret. cbv beta iota.
  fold (variable_lines_markdown s). fold (rule_lines s).
  do 2 f_equal. by repeat case_match.
Qed.

Lemma variable_lines_length s :
  wf s → length (variable_lines s) = length (registration_order s).
Proof.
  intros Hwf. unfold variable_lines.
  assert (∀ n, n ∈ registration_order s → is_Some (binding s n)) as Hb.
  { intros n Hn. destruct (wf_binding s n Hwf Hn) as (e & -> & _). eauto. }
  induction (registration_order s) as [|n ns IH]; [done|]. simpl.
  destruct (Hb n) as [e ->]; [by left|]. simpl. f_equal.
  apply IH. intros ??. apply Hb. by right.
Qed.

Lemma variable_lines_markdown_nil s :
  wf s → variable_lines_markdown s = [] ↔ registration_order s = [].
Proof.
  intros Hwf. unfold variable_lines_markdown. split.
  - intros Hnil. destruct (registration_order s) as [|n ns] eqn:Hreg; [done|].
    assert (n ∈ Object_keys (registeredVariables s)) as Hn.
    { rewrite Object_keys_perm. fold (registration_order s). rewrite Hreg. left. }
    destruct (wf_keys_bound s n Hwf Hn) as [e He].
    assert (("**" +:+ n +:+ "** - " +:+ description e) ∈ @nil string) as Hin.
    { rewrite <- Hnil. apply list_elem_of_omap. exists n. by rewrite He. }
    by apply elem_of_nil in Hin.
  - intros Hreg.
    assert (Object_keys (registeredVariables s) = []) as ->; [|done].
    apply Permutation_nil_r. rewrite Object_keys_perm.
    fold (registration_order s). by rewrite Hreg.
Qed.

Lemma variable_lines_markdown_nonempty s line :
  line ∈ variable_lines_markdown s → line ≠ "".
Proof.
  unfold variable_lines_markdown. rewrite list_elem_of_omap.
  intros (n & _ & Hline). destruct (binding s n); simplify_eq/=. done.
Qed.

Lemma join_nl_empty (ls : list string) :
  join nl ls = "" ↔ ls = [] ∨ ls = [""].
Proof.
  split; [|by intros [-> | ->]].
  destruct ls as [|x [|y ls]]; [by left| |].
  - simpl. intros ->. by right.
  - rewrite join_cons by done. intros Heq.
    apply (f_equal String.length) in Heq.
    rewrite !string_app_length in Heq. simpl in Heq. lia.
Qed.

Lemma sort_eq_nil {A} (cmp : A → A → Z) (l : list A) : sort cmp l = [] ↔ l = [].
Proof.
  split; [|by intros ->]. intros Hnil. apply length_zero_iff_nil.
  by rewrite <- (sort_length cmp), Hnil.
Qed.

Lemma sort_eq_singleton {A} (cmp : A → A → Z) (l : list A) x :
  sort cmp l = [x] ↔ l = [x].
Proof.
  split; [|by intros ->]. intros Hx.
  pose proof (sort_length cmp l) as Hlen. rewrite Hx in Hlen.
  destruct l as [|y [|z l]]; simplify_eq/=. done.
Qed.

Lemma rules_block_empty cmp s :
  join nl (sort cmp (rule_lines s)) = "" ↔
  postValidations s = [] ∨
  ∃ r, postValidations s = [r] ∧ rule_description r = "".
Proof.
  rewrite join_nl_empty, sort_eq_nil, sort_eq_singleton. unfold rule_lines.
  split; (intros [H|H]; [left|right]).
  - by apply fmap_nil_inv in H.
  - destruct (postValidations s) as [|r [|r' rs]]; simplify_eq/=. eauto.
  - by rewrite H.
  - by destruct H as (r & -> & <-).
Qed.

Lemma variables_block_empty cmp s :
  wf s →
  join nl (sort cmp (variable_lines_markdown s)) = "" ↔ registration_order s = [].
Proof.
  intros Hwf. rewrite join_nl_empty, sort_eq_nil, sort_eq_singleton.
  rewrite variable_lines_markdown_nil by done. split; [|by left].
  intros [?|Hx]; [done|]. exfalso.
  apply (variable_lines_markdown_nonempty s ""); [|done]. rewrite Hx. left.
Qed.

Lemma index_keys_indexed ks ik :
  ik ∈ index_keys ks → array_index ik.2 = Some ik.1.
Proof.
  unfold index_keys. rewrite list_elem_of_omap. intros (k & _ & Hk).
  destruct (array_index k) eqn:E; simplify_eq/=. done.
Qed.

Lemma Object_keys_named_order (obj : JSObject) :
  named_keys (Object_keys obj) = named_keys (own_keys obj).
Proof.
  unfold Object_keys, named_keys at 1. rewrite filter_app.
  assert (filter (fun k => array_index k = None)
            (sort_indices (index_keys (own_keys obj))).*2 = []) as ->.
  { assert (Forall (fun ik => array_index ik.2 = Some ik.1)
              (sort_indices (index_keys (own_keys obj)))) as Hall.
    { apply Forall_forall. intros ik Hik. rewrite sort_indices_perm in Hik.
      by apply index_keys_indexed in Hik. }
    induction Hall as [|ik l Hik _ IH]; [done|].
    rewrite fmap_cons, filter_cons_False; [done|]. by rewrite Hik. }
  simpl. unfold named_keys. apply list_filter_filter_l. done.
Qed.

(** ** The invariant holds in every reachable store *)

Lemma new_Envar_wf s n (v : @Validator T) d : wf s → wf (new_Envar n v d s).2.
Proof.
  intros [Hnd Hall]. split; [done|]. simpl.
  eapply Forall_impl; [exact Hall|]. intros [k a]. simpl. intros Hk.
  destruct (envars s !! a) as [e|] eqn:Ha; [|done].
  by rewrite (lookup_app_l_Some _ _ _ _ Ha).
Qed.

Lemma call_wf (c : @Call T) s : wf s → wf (call c s).
Proof.
  intros Hwf. destruct c; simpl.
  - by apply register_wf.
  - done.
  - by apply validate_wf.
  - by rewrite <- (describeAll_pure localeCompare s s eq_refl).
  - by rewrite <- (describeAllMarkdown_pure localeCompare s s eq_refl).
  - by apply new_Envar_wf.
  - by apply Envar_value_wf.
  - done.
Qed.

Lemma reachable_wf s : reachable s → wf s.
Proof.
  intros (ρ & calls & ->). revert ρ.
  induction calls as [|c calls IH] using rev_ind; intros ρ.
  - apply init_wf.
  - rewrite foldl_app. simpl. apply call_wf, IH.
Qed.

(** * The claims *)

(** C1, amended.  When the value of at least one registered binding cannot
    be read and no rule fails, [validate()] throws one error whose message
    is the header [The following environment variables are invalid:], an
    empty line, and one entry [<name> - <msg>] per failing binding, joined
    by single line feeds.  The entries come in the order of [Object.keys]
    of the registry object: names that are array indices first, in
    ascending numeric order, then the other names in registration order.
    When no registered name is an array index this is the registration
    order. *)
Theorem validate_variables_report s :
  wf s →
  (∃ n e msg, binding s n = Some e ∧ outcome (env s) e = Throw msg) →
  (∀ r, r ∈ postValidations s → rule_validator r (env s) = Normal tt) →
  let failed := failing_variables s (Object_keys (registeredVariables s)) in
  (validate s).1 =
    Throw ("The following environment variables are invalid:" +:+ nl +:+ nl +:+
           join nl failed) ∧
  (∀ entry, entry ∈ failed ↔
     ∃ n e msg, binding s n = Some e ∧ outcome (env s) e = Throw msg ∧
                entry = n +:+ " - " +:+ msg) ∧
  Object_keys (registeredVariables s) ≡ₚ registration_order s ∧
  named_keys (Object_keys (registeredVariables s)) =
    named_keys (registration_order s) ∧
  (Forall (fun n => array_index n = None) (registration_order s) →
   Object_keys (registeredVariables s) = registration_order s).
Proof.
  intros Hwf (n & e & msg & Hb & Ho) Hrules failed.
  assert (failed ≠ []) as Hfailed.
  { intros Hnil.
    assert ((n +:+ " - " +:+ msg) ∈ failed) as Hin.
    { apply elem_of_failing_variables; eauto 10. }
    rewrite Hnil in Hin. by apply elem_of_nil in Hin. }
  split_and!.
  - rewrite validate_result by done. fold failed.
    rewrite (failing_rules_nil s Hrules).
    rewrite <- (report_variables_only failed Hfailed).
    destruct (truthy (report failed [])) eqn:Htruthy; [done|].
    apply report_truthy in Htruthy as [? _]. done.
  - intros entry. by apply elem_of_failing_variables.
  - apply Object_keys_perm.
  - apply Object_keys_named_order.
  - apply Object_keys_named.
Qed.

(** C3.  Once a read of a binding's value has succeeded with [v], every
    later read returns [v] and leaves the store, its event log included, as
    it is: no environment lookup, no validator call.  This holds in any
    later store in which the object is as the first read left it, whatever
    the environment has become; in particular for any number of reads with
    the environment replaced before each. *)
Theorem value_memoized s a v :
  (Envar_value a s).1 = Normal v →
  (∀ s', envars s' !! a = envars (Envar_value a s).2 !! a →
         Envar_value a s' = (Normal v, s')) ∧
  (∀ ρs : list Env,
     let s1 := (Envar_value a s).2 in
     (mapM (attempt a) ρs s1).1 = Normal (replicate (length ρs) (Normal v)) ∧
     log (mapM (attempt a) ρs s1).2 = log s1 ∧
     envars (mapM (attempt a) ρs s1).2 = envars s1).
Proof.
  intros (e & Ha & Ho & Ha')%Envar_value_Normal.
  pose proof (settle_cache _ _ _ Ho) as Hc. split.
  - intros s' Hs'. rewrite Ha' in Hs'. by eapply Envar_value_cached.
  - intros ρs s1. rewrite (attempts_cached a v ρs s1 _ Ha' Hc). simpl.
    by destruct (last ρs).
Qed.

(** C4.  While the validator of a binding throws, the cache stays
    [{ empty: true }]: a run of reads in environments in which it throws
    yields one prefixed error per read, each read having looked the name up
    and called the validator again, and leaves the objects unchanged; the
    next read in an environment in which the validator returns [v] looks up
    and validates once more, returns [v] and stores it. *)
Theorem failing_value_reevaluated s a e (ρs : list Env) :
  envars s !! a = Some e →
  cache e = empty →
  Forall (fun ρ => ∃ msg, validator e (ρ (name e)) = Throw msg) ρs →
  let s' := (mapM (attempt a) ρs s).2 in
  (∃ results,
     (mapM (attempt a) ρs s).1 = Normal results ∧
     Forall2 (fun ρ res => ∃ msg, validator e (ρ (name e)) = Throw msg ∧
                                   res = Throw (name e +:+ " - " +:+ msg))
             ρs results) ∧
  envars s' = envars s ∧
  log s' = log s ++
    flat_map (fun ρ => [EnvLookup (name e); ValidatorCall (name e) (ρ (name e))]) ρs ∧
  (∀ ρ v, validator e (ρ (name e)) = Normal v →
     (attempt a ρ s').1 = Normal (Normal v) ∧
     log (attempt a ρ s').2 =
       log s' ++ [EnvLookup (name e); ValidatorCall (name e) (ρ (name e))] ∧
     envars (attempt a ρ s').2 !! a = Some (with_cache (value v) e)).
Proof.
  intros Ha Hc Hfail s'.
  destruct (attempts_failing a e ρs s Ha Hc Hfail) as (s1 & Hrun & He & _ & _ & Hl).
  subst s'. rewrite Hrun. simpl. split_and!; [|done|done|].
  - eexists. split; [done|]. apply Forall2_fmap_r, Forall_Forall2_diag.
    eapply Forall_impl; [exact Hfail|]. intros ρ [msg Hmsg].
    exists msg. by rewrite Hmsg.
  - intros ρ v Hv. assert (envars s1 !! a = Some e) as Ha1 by by rewrite He.
    rewrite (attempt_spec s1 a e ρ Ha1). simpl.
    unfold outcome, access_events, settle. rewrite Hc, Hv.
    split_and!; [done..|].
    apply list_lookup_insert_eq. by eapply lookup_lt_Some.
Qed.

(** C7.  When the validator of a binding throws [msg] during a read of its
    value, the getter throws an error whose message is the binding's name,
    [ - ] and [msg]; for a registered binding the name is the one it was
    registered under. *)
Theorem value_error_message s a e msg :
  envars s !! a = Some e →
  cache e = empty →
  validator e (env s (name e)) = Throw msg →
  (Envar_value a s).1 = Throw (name e +:+ " - " +:+ msg) ∧
  (∀ n, wf s → lookup_own (registeredVariables s) n = Some a →
        (Envar_value a s).1 = Throw (n +:+ " - " +:+ msg)).
Proof.
  intros Ha Hc Hv.
  assert ((Envar_value a s).1 = Throw (name e +:+ " - " +:+ msg)) as Hthrow.
  { rewrite (Envar_value_spec _ _ _ Ha). unfold outcome. by rewrite Hc, Hv. }
  split; [done|]. intros n Hwf Hn.
  destruct (wf_lookup s n a Hwf Hn) as (e' & He' & <-). congruence.
Qed.

(** C5.  One [validate()] call reads every registered binding and runs
    every registered rule, whatever fails on the way: its events are those
    of reading each registered name once, followed by one check call per
    rule, and every binding is left as a read leaves it: holding its value
    if its validator returned one.  With no failure the call returns
    normally; otherwise it throws the one aggregated report, in which the
    entry of every failing binding and the message of every failing rule
    occur. *)
Theorem validate_aggregates s :
  wf s →
  let names := Object_keys (registeredVariables s) in
  let failedVariables := failing_variables s names in
  let failedRules := failing_rules s in
  names ≡ₚ registration_order s ∧
  log (validate s).2 =
    log s ++ variables_events s names ++
    map (fun r => CheckCall (rule_description r)) (postValidations s) ∧
  (failedVariables = [] ∧ failedRules = [] → (validate s).1 = Normal tt) ∧
  (¬ (failedVariables = [] ∧ failedRules = []) →
   (validate s).1 = Throw (report failedVariables failedRules)) ∧
  (∀ n, binding (validate s).2 n = settle (env s) <$> binding s n) ∧
  (∀ n e msg,
     binding s n = Some e → outcome (env s) e = Throw msg →
     ∃ text, (validate s).1 = Throw text ∧ occurs_in (n +:+ " - " +:+ msg) text) ∧
  (∀ r msg,
     r ∈ postValidations s → rule_validator r (env s) = Throw msg →
     ∃ text, (validate s).1 = Throw text ∧ occurs_in msg text).
Proof.
  intros Hwf names fv fr.
  assert (¬ (fv = [] ∧ fr = []) → (validate s).1 = Throw (report fv fr)) as Hthrow.
  { intros Hne. rewrite validate_result by done. fold names fv fr.
    destruct (truthy (report fv fr)) eqn:Htruthy; [done|].
    by apply report_truthy in Htruthy. }
  split_and!.
  - apply Object_keys_perm.
  - by apply validate_log.
  - intros [Hfv Hfr]. rewrite validate_result by done. fold names fv fr.
    by rewrite Hfv, Hfr.
  - done.
  - intros n. by apply validate_bindings.
  - intros n e msg Hb Ho.
    assert ((n +:+ " - " +:+ msg) ∈ fv) as Hin.
    { apply elem_of_failing_variables; eauto 10. }
    exists (report fv fr). split.
    + apply Hthrow. intros [Hnil _]. rewrite Hnil in Hin.
      by apply elem_of_nil in Hin.
    + apply occurs_in_report, elem_of_app. by left.
  - intros r msg Hr Hv.
    assert (msg ∈ fr) as Hin by (apply elem_of_failing_rules; eauto).
    exists (report fv fr). split.
    + apply Hthrow. intros [_ Hnil]. rewrite Hnil in Hin.
      by apply elem_of_nil in Hin.
    + apply occurs_in_report, elem_of_app. by right.
Qed.

(** C6.  When the check of a rule throws [msg], [Rule.validate()] throws an
    error with the very message [msg], and the report of [validate()] is,
    letter for letter: the variables section if a variable fails (its
    header, an empty line, the entries [<name> - <msg>]), two line feeds,
    the header of the rules section, an empty line and the messages of the
    failing checks as they are, without the rule's description. *)
Theorem rule_message_unprefixed s r msg :
  wf s →
  r ∈ postValidations s →
  rule_validator r (env s) = Throw msg →
  let failedVariables :=
    failing_variables s (Object_keys (registeredVariables s)) in
  (Rule_validate r s).1 = Throw msg ∧
  msg ∈ failing_rules s ∧
  (validate s).1 =
    Throw ((match failedVariables with
            | [] => ""
            | _ :: _ =>
                "The following environment variables are invalid:" +:+
                nl +:+ nl +:+ join nl failedVariables
            end) +:+
           nl +:+ nl +:+ "The following validation rules are invalid:" +:+
           nl +:+ nl +:+ join nl (failing_rules s)) ∧
  (∀ entry, entry ∈ failing_rules s ↔
     ∃ r', r' ∈ postValidations s ∧ rule_validator r' (env s) = Throw entry) ∧
  (∀ entry, entry ∈ failedVariables ↔
     ∃ n e m, binding s n = Some e ∧ outcome (env s) e = Throw m ∧
              entry = n +:+ " - " +:+ m).
Proof.
  intros Hwf Hr Hv fv.
  assert (msg ∈ failing_rules s) as Hin by (apply elem_of_failing_rules; eauto).
  assert (failing_rules s ≠ []) as Hne.
  { intros Hnil. rewrite Hnil in Hin. by apply elem_of_nil in Hin. }
  split_and!.
  - rewrite Rule_validate_spec. simpl. by rewrite Hv.
  - done.
  - rewrite validate_result by done. fold fv. clearbody fv.
    assert ((match fv with
             | [] => ""
             | _ :: _ =>
                 "The following environment variables are invalid:" +:+
                 nl +:+ nl +:+ join nl fv
             end) =
            (match fv with [] => "" | _ :: _ => variablesStatus fv end)) as ->.
    { destruct fv as [|x fv']; [done|]. unfold variablesStatus.
      rewrite (join_cons nl (_ +:+ nl)) by done. by rewrite string_app_assoc. }
    rewrite <- (report_rules_section fv _ Hne).
    destruct (truthy (report fv (failing_rules s))) eqn:Htruthy; [done|].
    apply report_truthy in Htruthy as [_ ?]. done.
  - apply elem_of_failing_rules.
  - intros entry. by apply elem_of_failing_variables.
Qed.

(** C8, amended.  [describeAll()] returns the lines
    [<name> - <description>] of the registered variables, one each, sorted
    by [localeCompare] of the whole line (no line compares greater than a
    later one), followed by the descriptions of the rules sorted likewise,
    all joined by line feeds and with nothing else in between: when no line
    holds a line feed, the lines of the text are exactly the variable lines
    followed by the rule lines.  The order is the collation of the host,
    which is consistent but need not be the lexicographic order of the
    code units. *)
Theorem describeAll_sorted_blocks (localeCompare : string → string → Z) s :
  consistent localeCompare →
  wf s →
  ∃ variables rules,
    (describeAll localeCompare s).1 = Normal (join nl (variables ++ rules)) ∧
    variables ≡ₚ variable_lines s ∧
    length variables = length (registration_order s) ∧
    rules ≡ₚ rule_lines s ∧
    StronglySorted (fun x y => (localeCompare x y ≤ 0)%Z) variables ∧
    StronglySorted (fun x y => (localeCompare x y ≤ 0)%Z) rules ∧
    (variables ++ rules ≠ [] →
     Forall (fun l => has_char "010"%char l = false) (variables ++ rules) →
     lines (join nl (variables ++ rules)) = variables ++ rules).
Proof.
  intros [Htotal Htrans] Hwf. rewrite describeAll_spec by done.
  eexists _, _. split; [reflexivity|].
  assert (sort localeCompare
            (omap (fun n => (fun e => n +:+ " - " +:+ description e) <$> binding s n)
                  (Object_keys (registeredVariables s))) ≡ₚ variable_lines s)
    as Hperm.
  { rewrite sort_perm. unfold variable_lines. by rewrite Object_keys_perm. }
  split_and!.
  - exact Hperm.
  - rewrite Hperm. by apply variable_lines_length.
  - apply sort_perm.
  - by apply sort_sorted.
  - by apply sort_sorted.
  - apply lines_join.
Qed.

(** C9, amended.  The array joined by [describeAllMarkdown()] holds the
    heading [#Variables] followed by the sorted block of variable lines
    exactly when a variable is registered, then the heading
    [#Post validation rules] followed by the sorted block of rule
    descriptions exactly when that block is not the empty text, that is,
    when a rule is registered and the registered rules are not a single
    rule with the empty description. *)
Theorem describeAllMarkdown_headings (localeCompare : string → string → Z) s :
  wf s →
  let envars := join nl (sort localeCompare (variable_lines_markdown s)) in
  let rules := join nl (sort localeCompare (rule_lines s)) in
  let result :=
    (if decide (registration_order s = []) then [] else ["#Variables"; envars]) ++
    (if decide (rules = "") then [] else ["#Post validation rules"; rules]) in
  (describeAllMarkdown_result localeCompare s).1 = Normal result ∧
  (describeAllMarkdown localeCompare s).1 = Normal (join nl result) ∧
  (rules = "" ↔
     postValidations s = [] ∨
     ∃ r, postValidations s = [r] ∧ rule_description r = "").
Proof.
  intros Hwf envars rules result.
  assert (describeAllMarkdown_result localeCompare s = (Normal result, s)) as Hres.
  { rewrite describeAllMarkdown_result_spec by done. cbv zeta.
    fold envars rules. subst result. do 3 f_equal.
    - rewrite <- truthy_length.
      pose proof (variables_block_empty localeCompare s Hwf) as Hblock.
      fold envars in Hblock.
      destruct (decide (registration_order s = [])) as [Hreg|Hreg].
      + by rewrite (proj2 Hblock Hreg).
      + destruct envars; [|done]. destruct Hreg. by apply Hblock.
    - rewrite <- truthy_length. destruct rules; by case_decide. }
  split_and!.
  - by rewrite Hres.
  - unfold describeAllMarkdown, bind. by rewrite Hres.
  - apply rules_block_empty.
Qed.

(** C10.  [describeAll()] and [describeAllMarkdown()] leave every store as
    they found it: the registered bindings and rules, the cache of every
    [Envar] and the event log are the same afterwards, so neither reads the
    environment nor calls a validator or a check. *)
Theorem describe_read_only (localeCompare : string → string → Z) s :
  (describeAll localeCompare s).2 = s ∧
  (describeAllMarkdown localeCompare s).2 = s.
Proof.
  split; symmetry.
  - by apply (describeAll_pure localeCompare s).
  - by apply (describeAllMarkdown_pure localeCompare s).
Qed.

(** Registering two different names that are neither registered nor
    inherited succeeds twice; the registry then lists both, in that order. *)
Lemma register_distinct_names s n1 n2 (v1 v2 : @Validator T) d1 d2 :
  n1 ≠ n2 →
  n1 ∉ registration_order s → n2 ∉ registration_order s →
  n1 ∉ Object_prototype → n2 ∉ Object_prototype →
  ∃ a1 a2 s1 s2,
    register n1 v1 d1 s = (Normal a1, s1) ∧
    register n2 v2 d2 s1 = (Normal a2, s2) ∧
    a1 ≠ a2 ∧
    registration_order s2 = registration_order s ++ [n1; n2].
Proof.
  intros Hne H1 H2 Hp1 Hp2. eexists _, _, _, _.
  split; [by apply register_fresh|].
  split; [apply register_fresh; [|done]|].
  - unfold registration_order, own_keys in *. simpl. rewrite fmap_app.
    simpl. intros [?|Hin]%elem_of_app; [done|].
    apply list_elem_of_singleton in Hin. congruence.
  - simpl. rewrite length_app. simpl. split; [lia|].
    unfold registration_order, own_keys. simpl.
    by rewrite !fmap_app, <- app_assoc.
Qed.

(** Registering a name again after a successful registration throws and
    leaves the store, and so the first binding, as it was. *)
Lemma register_same_name_twice s n (v v' : @Validator T) d d' a s1 :
  register n v d s = (Normal a, s1) →
  register n v' d' s1 = (Throw ("Variable " +:+ n +:+ " already defined!"), s1) ∧
  binding s1 n =
    Some {| name := n; validator := v; description := d; cache := empty |}.
Proof.
  intros Hreg.
  destruct (decide (n ∈ registration_order s ∨ n ∈ Object_prototype)) as [Hn|Hn].
  { pose proof (register_outcome s n v d) as Hout.
    rewrite Hreg, decide_True in Hout by done. done. }
  rewrite register_fresh in Hreg by (intros ?; apply Hn; auto).
  injection Hreg as <- <-. split.
  - apply register_duplicate. unfold registration_order, own_keys. simpl.
    rewrite fmap_app. apply elem_of_app. right. left.
  - unfold binding. simpl. rewrite lookup_own_app_fresh.
    assert (lookup_own (registeredVariables s) n = None) as ->.
    { apply lookup_own_None. intros ?. apply Hn. by left. }
    rewrite decide_True by done. simpl.
    by rewrite lookup_app_r, Nat.sub_diag by lia.
Qed.

(** C2, at the failing input.  In a registry in which nothing is
    registered, registering the name [toString] throws the error of a
    duplicate registration. *)
Theorem register_rejects_inherited_name (ρ : Env) (v : @Validator T) (d : string) :
  registration_order (@init T ρ) = [] ∧
  (register "toString" v d (init ρ)).1 =
    Throw "Variable toString already defined!".
Proof. split; reflexivity. Qed.

End Properties.

(** * The claims at the example stores *)

Lemma compare_code_units_le (a b : string) :
  (compare_code_units a b ≤ 0)%Z ↔ String.le a b.
Proof.
  unfold compare_code_units, String.le, String.leb.
  destruct (String.compare a b); simpl; (split; [done || lia | done || lia]).
Qed.

Lemma compare_code_units_consistent : consistent compare_code_units.
Proof.
  split.
  - intros a b. rewrite !compare_code_units_le. apply total, _.
  - intros a b c. rewrite !compare_code_units_le. apply transitivity.
Qed.

(** The example stores are reached by registrations from a new
    [Envaridator], so the invariant holds in them. *)
Lemma readme_reachable : reachable readme.
Proof.
  exists readme_env,
    [CallRegister "CORRECT_URL" url_validator "a url";
     CallRegister "WRONG_URL" url_validator "a wrong url";
     CallRegister "V@R1ABL3" str_validator "not set";
     CallRegister "SOME_VARIABLE" str_validator "a string";
     CallRegister "SOME_OTHER_VARIABLE" str_validator "another string"].
  reflexivity.
Qed.

Lemma readme_wf : wf readme.
Proof. apply reachable_wf, readme_reachable. Qed.

Lemma readme_rules_wf : wf readme_rules.
Proof.
  apply (call_wf (CallRegisterPostValidation _ _)).
  apply (call_wf (CallRegisterPostValidation _ _)), readme_wf.
Qed.

Lemma numerals_wf : wf numerals.
Proof.
  apply reachable_wf. exists (fun _ => None),
    [CallRegister "2" str_validator "two"; CallRegister "1" str_validator "one"].
  reflexivity.
Qed.

Lemma unnamed_rule_wf : wf unnamed_rule.
Proof.
  apply reachable_wf. exists (fun _ => None),
    [CallRegisterPostValidation "" (fun _ => Normal tt)].
  reflexivity.
Qed.

(** C1 at the README: the report lists [WRONG_URL] and [V@R1ABL3]. *)
Lemma validate_variables_report_readme :
  wf readme ∧
  (validate readme).1 =
    Throw ("The following environment variables are invalid:" +:+ nl +:+ nl +:+
           "WRONG_URL - Invalid protocol: https:" +:+ nl +:+
           "V@R1ABL3 - value is null or undefined").
Proof.
  split; [exact readme_wf|].
  refine (proj1 (validate_variables_report readme readme_wf _ _)).
  - exists "WRONG_URL". eexists. exists "Invalid protocol: https:".
    split; reflexivity.
  - intros r Hr. by apply elem_of_nil in Hr.
Defined.

(** C1 as stated fails: registered as [2] then [1], the two failing
    bindings are reported as [1] then [2]. *)
Lemma validate_numerals_not_in_registration_order :
  wf numerals ∧
  registration_order numerals = ["2"; "1"] ∧
  postValidations numerals = [] ∧
  (validate numerals).1 =
    Throw ("The following environment variables are invalid:" +:+ nl +:+ nl +:+
           "1 - value is null or undefined" +:+ nl +:+
           "2 - value is null or undefined") ∧
  (validate numerals).1 ≠
    Throw ("The following environment variables are invalid:" +:+ nl +:+ nl +:+
           join nl (failing_variables numerals (registration_order numerals))).
Proof.
  split; [exact numerals_wf|]. split; [reflexivity|]. split; [reflexivity|].
  split; [reflexivity|]. vm_compute. discriminate.
Qed.

(** C3 at the README: [CORRECT_URL] is read once; afterwards its value
    stays, whatever the environment. *)
Lemma value_memoized_readme :
  (Envar_value 0 readme).1 = Normal "https://google.com" ∧
  (mapM (attempt 0) [fun _ => None; readme_env] (Envar_value 0 readme).2).1 =
    Normal [Normal "https://google.com"; Normal "https://google.com"] ∧
  log (mapM (attempt 0) [fun _ => None; readme_env] (Envar_value 0 readme).2).2 =
    [EnvLookup "CORRECT_URL";
     ValidatorCall "CORRECT_URL" (Some "https://google.com")].
Proof.
  assert ((Envar_value 0 readme).1 = Normal "https://google.com") as H
    by reflexivity.
  split; [exact H|].
  destruct (proj2 (value_memoized readme 0 _ H) [fun _ => None; readme_env])
    as (Hres & Hlog & _).
  split; [exact Hres|]. rewrite Hlog. reflexivity.
Defined.

(** C4 at the README: [WRONG_URL] fails twice, each time after a lookup
    and a validator call, and succeeds once the environment is corrected. *)
Lemma failing_value_reevaluated_readme :
  let e := {| name := "WRONG_URL"; validator := url_validator;
              description := "a wrong url"; cache := empty |} in
  let ρ := fun n => if decide (n = "WRONG_URL") then Some "https://google.com"
                    else None in
  envars readme !! 1 = Some e ∧
  log (mapM (attempt 1) [readme_env; fun _ => None] readme).2 =
    [EnvLookup "WRONG_URL"; ValidatorCall "WRONG_URL" (Some "htttps://google.com");
     EnvLookup "WRONG_URL"; ValidatorCall "WRONG_URL" None] ∧
  (attempt 1 ρ (mapM (attempt 1) [readme_env; fun _ => None] readme).2).1 =
    Normal (Normal "https://google.com").
Proof.
  intros e ρ.
  assert (envars readme !! 1 = Some e) as He by reflexivity.
  assert (Forall (fun ρ' => ∃ msg, validator e (ρ' (name e)) = Throw msg)
            [readme_env; fun _ => None]) as Hfail.
  { repeat constructor; eexists; reflexivity. }
  split; [exact He|].
  destruct (failing_value_reevaluated readme 1 e _ He eq_refl Hfail)
    as (_ & _ & Hlog & Hnext).
  split; [exact Hlog|].
  exact (proj1 (Hnext ρ "https://google.com" eq_refl)).
Defined.

(** C5 at the README with two rules: both failing variables and the
    failing rule are in the one report. *)
Lemma validate_aggregates_readme_rules :
  wf readme_rules ∧
  (validate readme_rules).1 =
    Throw ("The following environment variables are invalid:" +:+ nl +:+ nl +:+
           "WRONG_URL - Invalid protocol: https:" +:+ nl +:+
           "V@R1ABL3 - value is null or undefined" +:+ nl +:+ nl +:+
           "The following validation rules are invalid:" +:+ nl +:+ nl +:+
           "NO_URL is missing").
Proof.
  split; [exact readme_rules_wf|].
  destruct (validate_aggregates readme_rules readme_rules_wf)
    as (_ & _ & _ & Hthrow & _).
  apply Hthrow. intros [Hnil _]. discriminate Hnil.
Defined.

(** C6 at the README with two rules: the failing rule is reported by its
    message alone. *)
Lemma rule_message_unprefixed_readme_rules :
  let r := {| rule_description := "either URL is set";
              rule_validator := fun ρ => match ρ "NO_URL" with
                                         | Some _ => Normal tt
                                         | None => Throw "NO_URL is missing"
                                         end |} in
  wf readme_rules ∧ r ∈ postValidations readme_rules ∧
  (Rule_validate r readme_rules).1 = Throw "NO_URL is missing" ∧
  failing_rules readme_rules = ["NO_URL is missing"] ∧
  (validate readme_rules).1 =
    Throw ("The following environment variables are invalid:" +:+ nl +:+ nl +:+
           "WRONG_URL - Invalid protocol: https:" +:+ nl +:+
           "V@R1ABL3 - value is null or undefined" +:+ nl +:+ nl +:+
           "The following validation rules are invalid:" +:+ nl +:+ nl +:+
           "NO_URL is missing").
Proof.
  intros r.
  assert (r ∈ postValidations readme_rules) as Hr by (right; left).
  destruct (rule_message_unprefixed readme_rules r "NO_URL is missing"
              readme_rules_wf Hr eq_refl) as (Hrule & _ & Htext & _).
  split; [exact readme_rules_wf|]. split; [exact Hr|].
  split; [exact Hrule|]. split; [reflexivity|]. exact Htext.
Defined.

(** C7 at the README: reading [WRONG_URL] throws the prefixed message. *)
Lemma value_error_message_readme :
  (Envar_value 1 readme).1 = Throw "WRONG_URL - Invalid protocol: https:".
Proof.
  exact (proj1 (value_error_message readme 1
                  {| name := "WRONG_URL"; validator := url_validator;
                     description := "a wrong url"; cache := empty |}
                  "Invalid protocol: https:" eq_refl eq_refl eq_refl)).
Defined.

(** C8 at the README with two rules, under comparison by code units. *)
Lemma describeAll_sorted_blocks_readme_rules :
  consistent compare_code_units ∧ wf readme_rules ∧
  ∃ variables rules,
    (describeAll compare_code_units readme_rules).1 =
      Normal (join nl (variables ++ rules)) ∧
    variables ≡ₚ variable_lines readme_rules ∧
    length variables = 5 ∧
    rules ≡ₚ ["an https URL"; "either URL is set"] ∧
    StronglySorted (fun x y => (compare_code_units x y ≤ 0)%Z) variables ∧
    StronglySorted (fun x y => (compare_code_units x y ≤ 0)%Z) rules.
Proof.
  split; [exact compare_code_units_consistent|].
  split; [exact readme_rules_wf|].
  destruct (describeAll_sorted_blocks compare_code_units readme_rules
              compare_code_units_consistent readme_rules_wf)
    as (variables & rules & Hout & Hvars & Hlen & Hrules & Hsv & Hsr & _).
  exists variables, rules. repeat split; assumption.
Defined.

(** C8 as stated fails: under the comparison of the hosts the four rules
    [B], [b], [A], [a] are printed as [a], [A], [b], [B], which is not the
    lexicographic order of the lines ([A] comes before [a] there). *)
Lemma describeAll_letters_not_lexicographic :
  consistent localeCompare_letters ∧
  (describeAll localeCompare_letters letters).1 =
    Normal ("a" +:+ nl +:+ "A" +:+ nl +:+ "b" +:+ nl +:+ "B") ∧
  lines ("a" +:+ nl +:+ "A" +:+ nl +:+ "b" +:+ nl +:+ "B") =
    ["a"; "A"; "b"; "B"] ∧
  ¬ StronglySorted String.le ["a"; "A"; "b"; "B"].
Proof.
  split; [exact localeCompare_letters_consistent|].
  split; [reflexivity|]. split; [reflexivity|].
  intros Hsorted. apply StronglySorted_inv in Hsorted as [_ Hall].
  apply Forall_cons in Hall as [Hle _]. exact Hle.
Qed.

(** What [describeAll()] prints for that store. *)
Lemma describeAll_readme_rules :
  (describeAll compare_code_units readme_rules).1 =
    Normal ("CORRECT_URL - a url" +:+ nl +:+
            "SOME_OTHER_VARIABLE - another string" +:+ nl +:+
            "SOME_VARIABLE - a string" +:+ nl +:+
            "V@R1ABL3 - not set" +:+ nl +:+
            "WRONG_URL - a wrong url" +:+ nl +:+
            "an https URL" +:+ nl +:+
            "either URL is set").
Proof. reflexivity. Qed.

(** C9 at the README with two rules: both headings are there. *)
Lemma describeAllMarkdown_headings_readme_rules :
  wf readme_rules ∧
  (describeAllMarkdown compare_code_units readme_rules).1 =
    Normal ("#Variables" +:+ nl +:+
            "**CORRECT_URL** - a url" +:+ nl +:+
            "**SOME_OTHER_VARIABLE** - another string" +:+ nl +:+
            "**SOME_VARIABLE** - a string" +:+ nl +:+
            "**V@R1ABL3** - not set" +:+ nl +:+
            "**WRONG_URL** - a wrong url" +:+ nl +:+
            "#Post validation rules" +:+ nl +:+
            "an https URL" +:+ nl +:+
            "either URL is set").
Proof.
  split; [exact readme_rules_wf|].
  exact (proj1 (proj2 (describeAllMarkdown_headings compare_code_units
                         readme_rules readme_rules_wf))).
Defined.

(** C9 as stated fails: with one registered rule whose description is the
    empty string nothing is printed, no heading either. *)
Lemma describeAllMarkdown_unnamed_rule_no_heading :
  (describeAllMarkdown compare_code_units unnamed_rule).1 = Normal "" ∧
  ¬ ("#Post validation rules" ∈ lines "" ↔ postValidations unnamed_rule ≠ []).
Proof.
  split; [reflexivity|]. intros [_ Hin].
  assert ("#Post validation rules" ∈ lines "") as Habs by (by apply Hin).
  vm_compute in Habs. apply list_elem_of_singleton in Habs. discriminate.
Qed.

(** * Further properties of the code *)

Section Further.
Context {T : Type}.
Implicit Types (s : @Store T) (e : @Envar T) (a : nat) (ρ : Env) (r : Rule).
Implicit Types (n : string) (ns : list string).

(** ** What a read and a validation pass leave alone *)

Lemma Envar_value_store s a :
  (Envar_value a s).2 =
    match envars s !! a with
    | Some e => after_access a e s
    | None => s
    end.
Proof.
  destruct (envars s !! a) as [e|] eqn:Ha.
  - by rewrite (Envar_value_spec _ _ _ Ha).
  - by rewrite Envar_value_dangling.
Qed.

Lemma registered_value_preserves (P : @Store T → Prop) n :
  (∀ a, preserves P (Envar_value a)) → preserves P (registered_value n).
Proof.
  intros HP. apply preserves_bind; [apply preserves_gets|]. intros obj.
  destruct (obj_get obj n).
  - apply preserves_bind; [apply HP | intros; apply preserves_ret].
  - apply preserves_ret.
  - apply preserves_throw.
Qed.

Lemma validate_preserves (P : @Store T → Prop) :
  (∀ n, preserves P (registered_value n)) →
  (∀ r, preserves P (Rule_validate r)) →
  preserves P validate.
Proof.
  intros Hvar Hrule.
  apply preserves_bind; [apply preserves_gets|]. intros obj.
  apply preserves_bind.
  { apply preserves_forEach. intros n acc.
    apply preserves_try_catch; [|intros; apply preserves_ret].
    apply preserves_bind; [apply Hvar|]. intros; apply preserves_ret. }
  intros fv. apply preserves_bind; [apply preserves_gets|]. intros rules.
  apply preserves_bind.
  { destruct (0 <? length rules)%nat; [|apply preserves_ret].
    apply preserves_forEach. intros r acc.
    apply preserves_try_catch; [|intros; apply preserves_ret].
    apply preserves_bind; [apply Hrule|]. intros; apply preserves_ret. }
  intros fr. cbv zeta. case_match; [apply preserves_throw | apply preserves_ret].
Qed.

Lemma validate_frame s :
  env (validate s).2 = env s ∧
  registeredVariables (validate s).2 = registeredVariables s ∧
  postValidations (validate s).2 = postValidations s ∧
  length (envars (validate s).2) = length (envars s).
Proof.
  apply (validate_preserves
           (fun s' => env s' = env s ∧
                      registeredVariables s' = registeredVariables s ∧
                      postValidations s' = postValidations s ∧
                      length (envars s') = length (envars s))); [| |done].
  - intros n. apply registered_value_preserves. intros a s' Hs'.
    rewrite Envar_value_store. destruct (envars s' !! a); [|done].
    simpl. by rewrite length_insert.
  - intros r s' Hs'. by rewrite Rule_validate_spec.
Qed.

Lemma outcome_settle ρ e : outcome ρ (settle ρ e) = outcome ρ e.
Proof.
  unfold outcome, settle. destruct (cache e) eqn:Hc; [|by rewrite Hc].
  destruct (validator e (ρ (name e))) eqn:Hv; simpl; by rewrite ?Hc, ?Hv.
Qed.

Lemma access_events_settle ρ e :
  access_events ρ (settle ρ e) =
    match outcome ρ e with
    | Normal _ => []
    | Throw _ => access_events ρ e
    end.
Proof.
  unfold access_events, outcome, settle. destruct (cache e) eqn:Hc.
  - destruct (validator e (ρ (name e))) eqn:Hv; simpl; [done|]. by rewrite Hc.
  - by rewrite Hc.
Qed.

Lemma settle_fields ρ e :
  name (settle ρ e) = name e ∧ validator (settle ρ e) = validator e ∧
  description (settle ρ e) = description e ∧
  (∀ v, cache e = value v → cache (settle ρ e) = value v).
Proof.
  unfold settle. destruct (cache e) eqn:Hc.
  - destruct (validator e (ρ (name e))); simpl; by rewrite ?Hc.
  - by rewrite Hc.
Qed.

(** ** Stores only grow *)

Lemma extends_refl s : extends s s.
Proof. split_and!; [done..|]. intros a e He. exists e. by rewrite He. Qed.

Lemma extends_same_objects s s' :
  registeredVariables s' = registeredVariables s →
  postValidations s' = postValidations s →
  envars s' = envars s →
  extends s s'.
Proof.
  intros Hr Hp He. unfold extends, registration_order. rewrite Hr, Hp, He.
  apply extends_refl.
Qed.

Lemma extends_trans s1 s2 s3 : extends s1 s2 → extends s2 s3 → extends s1 s3.
Proof.
  intros (Hl1 & Hr1 & Hp1 & He1) (Hl2 & Hr2 & Hp2 & He2). split_and!.
  - intros n a Hn. by apply Hl2, Hl1.
  - by etrans.
  - by etrans.
  - intros a e Ha. destruct (He1 a e Ha) as (e' & Ha' & Hn & Hv & Hd & Hc).
    destruct (He2 a e' Ha') as (e'' & Ha'' & Hn' & Hv' & Hd' & Hc').
    exists e''. split_and!; [done|congruence..|]. intros v Hcv. by apply Hc', Hc.
Qed.

Lemma extends_preserves {A} (m : M (@Store T) A) s0 :
  (∀ s, extends s (m s).2) → preserves (extends s0) m.
Proof. intros Hm s Hs. by eapply extends_trans. Qed.

Lemma after_access_extends s a e :
  envars s !! a = Some e → extends s (after_access a e s).
Proof.
  intros Ha. split_and!; [done..|]. intros b e' Hb. simpl.
  destruct (decide (a = b)) as [<-|Hab].
  - rewrite list_lookup_insert_eq by (by eapply lookup_lt_Some).
    eexists. split; [done|]. assert (e' = e) as -> by congruence.
    apply settle_fields.
  - rewrite list_lookup_insert_ne by done. exists e'. by rewrite Hb.
Qed.

Lemma Envar_value_extends s a : extends s (Envar_value a s).2.
Proof.
  rewrite Envar_value_store. destruct (envars s !! a) as [e|] eqn:Ha.
  - by apply after_access_extends.
  - apply extends_refl.
Qed.

Lemma validate_extends s : extends s (validate s).2.
Proof.
  apply (validate_preserves (extends s)); [| |apply extends_refl].
  - intros n. apply registered_value_preserves. intros a.
    apply extends_preserves. intros s'. apply Envar_value_extends.
  - intros r. apply extends_preserves. intros s'.
    rewrite Rule_validate_spec. by apply extends_same_objects.
Qed.

Lemma new_Envar_extends s n (v : @Validator T) d : extends s (new_Envar n v d s).2.
Proof.
  split_and!; [done..|]. intros a e Ha. exists e. split; [|done]. simpl.
  by apply lookup_app_l_Some.
Qed.

Lemma register_extends s n (v : @Validator T) d : extends s (register n v d s).2.
Proof.
  destruct (decide (n ∈ registration_order s ∨ n ∈ Object_prototype)) as [Hn|Hn].
  - destruct (decide (n ∈ registration_order s)).
    + rewrite register_duplicate by done. apply extends_refl.
    + rewrite register_inherited; [apply extends_refl|]. by destruct Hn.
  - rewrite register_fresh by (intros ?; apply Hn; auto). split_and!; simpl.
    + intros k a Hk. rewrite lookup_own_app_fresh. by rewrite Hk.
    + unfold registration_order, own_keys. simpl. rewrite fmap_app.
      by apply prefix_app_r.
    + done.
    + intros a e Ha. exists e. split; [|done]. by apply lookup_app_l_Some.
Qed.

Lemma call_extends (c : @Call T) s : extends s (call c s).
Proof.
  destruct c; simpl.
  - apply register_extends.
  - split_and!; [done|done|by apply prefix_app_r|].
    intros a e Ha. by exists e.
  - apply validate_extends.
  - rewrite <- (describeAll_pure localeCompare s s eq_refl). apply extends_refl.
  - rewrite <- (describeAllMarkdown_pure localeCompare s s eq_refl).
    apply extends_refl.
  - apply new_Envar_extends.
  - apply Envar_value_extends.
  - by apply extends_same_objects.
Qed.

Lemma calls_extend (calls : list (@Call T)) : ∀ s,
  extends s (foldl (fun s c => call c s) s calls).
Proof.
  induction calls as [|c calls IH]; intros s; simpl.
  - apply extends_refl.
  - eapply extends_trans; [apply call_extends | apply IH].
Qed.

(** ** Registration *)

(** X1.  [register] is lazy: whether it returns or throws, it looks
    nothing up in the environment and calls no validator, and it leaves
    the environment, the rules and every existing [Envar] as they are. *)
Theorem register_reads_nothing s n (v : @Validator T) d :
  log (register n v d s).2 = log s ∧
  env (register n v d s).2 = env s ∧
  postValidations (register n v d s).2 = postValidations s ∧
  (∀ a e, envars s !! a = Some e → envars (register n v d s).2 !! a = Some e).
Proof.
  destruct (decide (n ∈ registration_order s ∨ n ∈ Object_prototype)) as [Hn|Hn].
  - assert (register n v d s =
            (Throw ("Variable " +:+ n +:+ " already defined!"), s)) as ->; [|done].
    destruct (decide (n ∈ registration_order s)).
    + by apply register_duplicate.
    + apply register_inherited. by destruct Hn.
  - rewrite register_fresh by (intros ?; apply Hn; auto). simpl.
    split_and!; [done..|]. intros a e Ha. by apply lookup_app_l_Some.
Qed.

(** X2.  When [register(n, v, d)] returns, the returned [Envar] is a new
    object with the given name, validator and description and an empty
    cache; it is the object registered under [n]; [n] is the last
    registered name; and every other name refers to what it did. *)
Theorem register_creates_binding s n (v : @Validator T) d a :
  (register n v d s).1 = Normal a →
  let s1 := (register n v d s).2 in
  envars s !! a = None ∧
  envars s1 !! a =
    Some {| name := n; validator := v; description := d; cache := empty |} ∧
  lookup_own (registeredVariables s1) n = Some a ∧
  registration_order s1 = registration_order s ++ [n] ∧
  (∀ k, k ≠ n →
        lookup_own (registeredVariables s1) k = lookup_own (registeredVariables s) k).
Proof.
  intros Hreg s1. subst s1. rewrite register_outcome in Hreg.
  case_decide as Hn; [done|]. injection Hreg as <-.
  assert (lookup_own (registeredVariables s) n = None) as Hfresh.
  { apply lookup_own_None. intros ?. apply Hn. by left. }
  rewrite register_fresh by (intros ?; apply Hn; auto). simpl. split_and!.
  - by apply lookup_ge_None_2.
  - by rewrite lookup_app_r, Nat.sub_diag by lia.
  - by rewrite lookup_own_app_fresh, Hfresh, decide_True.
  - unfold registration_order, own_keys. simpl. by rewrite fmap_app.
  - intros k Hk. rewrite lookup_own_app_fresh.
    destruct (lookup_own (registeredVariables s) k); [done|].
    by rewrite decide_False.
Qed.

(** X3.  Registering a name that is already registered throws
    [Variable <name> already defined!] and changes nothing: the store after
    the call is the store before it. *)
Theorem register_registered_name_rejected s n (v : @Validator T) d :
  n ∈ registration_order s →
  register n v d s = (Throw ("Variable " +:+ n +:+ " already defined!"), s).
Proof. apply register_duplicate. Qed.

(** X4.  Reading the value of the [Envar] just returned by
    [register(n, v, d)] looks [n] up in the environment once, calls [v] on
    what it finds once, and returns what [v] returns or throws
    [<n> - <msg>] when [v] throws [msg]. *)
Theorem register_then_value s n (v : @Validator T) d a :
  (register n v d s).1 = Normal a →
  let s1 := (register n v d s).2 in
  (Envar_value a s1).1 =
    match v (env s n) with
    | Normal x => Normal x
    | Throw msg => Throw (n +:+ " - " +:+ msg)
    end ∧
  log (Envar_value a s1).2 = log s ++ [EnvLookup n; ValidatorCall n (env s n)].
Proof.
  intros Hreg s1. subst s1. rewrite register_outcome in Hreg.
  case_decide as Hn; [done|]. injection Hreg as <-.
  rewrite register_fresh by (intros ?; apply Hn; auto).
  erewrite Envar_value_spec;
    [|simpl; by rewrite lookup_app_r, Nat.sub_diag by lia].
  done.
Qed.

(** X5.  Nothing unregisters: after any sequence of calls, every
    registered name still refers to the same [Envar], the names registered
    before are the first registered names, in the same order, and the rules
    registered before are the first rules. *)
Theorem registrations_are_permanent (calls : list (@Call T)) s n a :
  lookup_own (registeredVariables s) n = Some a →
  let s' := foldl (fun s c => call c s) s calls in
  lookup_own (registeredVariables s') n = Some a ∧
  registration_order s `prefix_of` registration_order s' ∧
  postValidations s `prefix_of` postValidations s'.
Proof.
  intros Hn s'. destruct (calls_extend calls s) as (Hl & Hr & Hp & _).
  split_and!; [by apply Hl|done|done].
Qed.

(** X6.  After any sequence of calls an [Envar] still has the name, the
    validator and the description it had, and a value it held is the value
    it holds: a memoised value is neither cleared nor replaced. *)
Theorem envar_is_stable (calls : list (@Call T)) s a e :
  envars s !! a = Some e →
  ∃ e', envars (foldl (fun s c => call c s) s calls) !! a = Some e' ∧
        name e' = name e ∧ validator e' = validator e ∧
        description e' = description e ∧
        (∀ v, cache e = value v → cache e' = value v).
Proof.
  intros Ha. destruct (calls_extend calls s) as (_ & _ & _ & He). by apply He.
Qed.

(** ** Validation passes *)

Lemma failing_variables_nil s :
  wf s →
  failing_variables s (Object_keys (registeredVariables s)) = [] ↔
  ∀ n e, binding s n = Some e → ∃ v, outcome (env s) e = Normal v.
Proof.
  intros Hwf. split.
  - intros Hnil n e Hb. destruct (outcome (env s) e) as [v|msg] eqn:Ho; [eauto|].
    assert ((n +:+ " - " +:+ msg) ∈
            failing_variables s (Object_keys (registeredVariables s))) as Hin.
    { apply elem_of_failing_variables; eauto 10. }
    rewrite Hnil in Hin. by apply elem_of_nil in Hin.
  - intros Hok.
    destruct (failing_variables s _) as [|entry fv] eqn:E; [done|].
    assert (entry ∈ failing_variables s (Object_keys (registeredVariables s)))
      as Hin by (rewrite E; left).
    apply elem_of_failing_variables in Hin as (n & e & msg & Hb & Ho & _);
      [|done].
    destruct (Hok n e Hb) as [v Hv]. congruence.
Qed.

Lemma failing_rules_nil_iff s :
  failing_rules s = [] ↔
  ∀ r, r ∈ postValidations s → rule_validator r (env s) = Normal tt.
Proof.
  split; [|apply failing_rules_nil].
  intros Hnil r Hr. destruct (rule_validator r (env s)) as [[]|msg] eqn:Hv; [done|].
  assert (msg ∈ failing_rules s) as Hin by (apply elem_of_failing_rules; eauto).
  rewrite Hnil in Hin. by apply elem_of_nil in Hin.
Qed.

(** X7.  [validate()] returns normally exactly when the value of every
    registered [Envar] can be read and every check returns. *)
Theorem validate_passes_iff s :
  wf s →
  (validate s).1 = Normal tt ↔
  (∀ n a, lookup_own (registeredVariables s) n = Some a →
          ∃ v, (Envar_value a s).1 = Normal v) ∧
  (∀ r, r ∈ postValidations s → rule_validator r (env s) = Normal tt).
Proof.
  intros Hwf. rewrite validate_result by done.
  rewrite <- failing_rules_nil_iff.
  assert ((∀ n a, lookup_own (registeredVariables s) n = Some a →
                  ∃ v, (Envar_value a s).1 = Normal v) ↔
          failing_variables s (Object_keys (registeredVariables s)) = []) as ->.
  { rewrite failing_variables_nil by done. split.
    - intros Hread n e (a & Hn & Ha)%binding_Some.
      destruct (Hread n a Hn) as [v Hv]. exists v.
      rewrite (Envar_value_spec _ _ _ Ha) in Hv. simpl in Hv.
      by destruct (outcome (env s) e); simplify_eq.
    - intros Hok n a Hn. destruct (wf_lookup s n a Hwf Hn) as (e & Ha & _).
      destruct (Hok n e) as [v Hv]; [apply binding_Some; eauto|].
      exists v. rewrite (Envar_value_spec _ _ _ Ha). simpl. by rewrite Hv. }
  destruct (truthy (report _ _)) eqn:Htruthy.
  - split; [done|]. intros Hnil. apply report_truthy in Hnil. congruence.
  - by apply report_truthy in Htruthy.
Qed.

(** X8.  When no variable fails and a check does, the message of the error
    thrown by [validate()] starts with two line feeds: the separator is
    written before the rules section although no variables section comes
    before it. *)
Theorem validate_rules_only_report s r msg :
  wf s →
  (∀ n e, binding s n = Some e → ∃ v, outcome (env s) e = Normal v) →
  r ∈ postValidations s →
  rule_validator r (env s) = Throw msg →
  (validate s).1 =
    Throw (nl +:+ nl +:+ "The following validation rules are invalid:" +:+
           nl +:+ nl +:+ join nl (failing_rules s)).
Proof.
  intros Hwf Hok Hr Hv.
  apply (failing_variables_nil s Hwf) in Hok.
  assert (msg ∈ failing_rules s) as Hin by (apply elem_of_failing_rules; eauto).
  assert (failing_rules s ≠ []) as Hne.
  { intros Hnil. rewrite Hnil in Hin. by apply elem_of_nil in Hin. }
  rewrite validate_result, Hok by done.
  rewrite (report_rules_section [] _ Hne).
  destruct (failing_rules s); done.
Qed.

Lemma validate_bindings_failing s ns :
  wf s →
  failing_variables (validate s).2 ns = failing_variables s ns.
Proof.
  intros Hwf. destruct (validate_frame s) as (Hρ & _).
  unfold failing_variables. apply list_omap_ext, Forall_Forall2_diag, Forall_forall.
  intros n _. rewrite validate_bindings, Hρ by done.
  destruct (binding s n) as [e|]; [|done]. simpl.
  unfold variable_failure. rewrite outcome_settle.
  by destruct (settle_fields (env s) e) as (-> & _).
Qed.

(** X9.  A second [validate()] in the same environment ends as the first
    did, with the same report if any.  It looks up and validates again only
    the bindings that failed, and it runs every check again. *)
Theorem validate_twice s :
  wf s →
  let s1 := (validate s).2 in
  (validate s1).1 = (validate s).1 ∧
  log (validate s1).2 =
    log s1 ++
    flat_map (fun n =>
                match binding s n with
                | Some e =>
                    match outcome (env s) e with
                    | Normal _ => []
                    | Throw _ => [EnvLookup n; ValidatorCall n (env s n)]
                    end
                | None => []
                end) (Object_keys (registeredVariables s)) ++
    map (fun r => CheckCall (rule_description r)) (postValidations s).
Proof.
  intros Hwf s1. pose proof (validate_wf s Hwf) as Hwf1. fold s1 in Hwf1.
  destruct (validate_frame s) as (Hρ & Hobj & Hrules & _).
  fold s1 in Hρ, Hobj, Hrules. split.
  - rewrite !validate_result by done. rewrite Hobj.
    unfold s1 at 1 3. rewrite !validate_bindings_failing by done.
    unfold failing_rules. by rewrite Hρ, Hrules.
  - rewrite validate_log by done. rewrite Hobj, Hrules. do 2 f_equal.
    unfold variables_events. apply flat_map_ext. intros n.
    unfold s1. rewrite validate_bindings by done. fold s1. rewrite Hρ.
    destruct (binding s n) as [e|] eqn:Hb; [|done]. simpl.
    rewrite access_events_settle.
    destruct (outcome (env s) e) as [v|msg] eqn:Ho; [done|].
    unfold access_events, outcome in *.
    destruct (cache e); [|done]. by rewrite (binding_name s n e Hwf Hb).
Qed.

(** X10.  [validate()] memoises: a registered binding that could be read
    during [validate()] is read afterwards without lookup and without
    validator call, with the same value, whatever the environment has
    become. *)
Theorem validate_caches_successes s n a e v :
  wf s →
  lookup_own (registeredVariables s) n = Some a →
  envars s !! a = Some e →
  outcome (env s) e = Normal v →
  ∀ s', envars s' !! a = envars (validate s).2 !! a →
        Envar_value a s' = (Normal v, s').
Proof.
  intros Hwf Hn Ha Ho s' Hs'.
  destruct (validate_frame s) as (_ & Hobj & _).
  pose proof (validate_bindings s n Hwf) as Hb.
  unfold binding in Hb. rewrite Hobj, Hn in Hb. simpl in Hb.
  rewrite Ha in Hb. simpl in Hb. rewrite Hb in Hs'.
  eapply Envar_value_cached; [done|]. by apply settle_cache.
Qed.

(** ** Descriptions *)

Lemma calls_wf (calls : list (@Call T)) : ∀ s,
  wf s → wf (foldl (fun s c => call c s) s calls).
Proof.
  induction calls as [|c calls IH]; intros s Hwf; simpl; [done|].
  by apply IH, call_wf.
Qed.

Lemma extends_description_lines (fmt : string → string → string) s s' ns :
  extends s s' →
  (∀ n, n ∈ ns → is_Some (binding s n)) →
  omap (fun n => (fun e => fmt n (description e)) <$> binding s' n) ns =
  omap (fun n => (fun e => fmt n (description e)) <$> binding s n) ns.
Proof.
  intros (Hl & _ & _ & He) Hns.
  apply list_omap_ext, Forall_Forall2_diag, Forall_forall. intros n Hn.
  destruct (Hns n Hn) as [e Hb]. rewrite Hb.
  apply binding_Some in Hb as (a & Ha & Hea).
  destruct (He a e Hea) as (e' & Hea' & _ & _ & Hd & _).
  assert (binding s' n = Some e') as ->.
  { apply binding_Some. exists a. split; [by apply Hl | done]. }
  simpl. by rewrite Hd.
Qed.

(** X12.  What [describeAll()] and [describeAllMarkdown()] print changes
    only when something is registered: after any sequence of calls that
    leaves the registered names and the rules as they were (reads of
    values, validation passes, changes of the environment), both print
    what they printed before. *)
Theorem describe_changes_only_by_registration
    (localeCompare : string → string → Z) (calls : list (@Call T)) s :
  wf s →
  let s' := foldl (fun s c => call c s) s calls in
  registration_order s' = registration_order s →
  postValidations s' = postValidations s →
  (describeAll localeCompare s').1 = (describeAll localeCompare s).1 ∧
  (describeAllMarkdown localeCompare s').1 =
    (describeAllMarkdown localeCompare s).1.
Proof.
  intros Hwf s' Hreg Hrules.
  pose proof (calls_wf calls s Hwf) as Hwf'. fold s' in Hwf'.
  pose proof (calls_extend calls s) as Hext. fold s' in Hext.
  assert (Object_keys (registeredVariables s') =
          Object_keys (registeredVariables s)) as Hkeys.
  { unfold Object_keys. fold (registration_order s') (registration_order s).
    by rewrite Hreg. }
  assert (∀ n, n ∈ Object_keys (registeredVariables s) → is_Some (binding s n))
    as Hbound by (intros n; by apply wf_keys_bound).
  split.
  - rewrite !describeAll_spec by done. simpl. unfold rule_lines.
    rewrite Hkeys, Hrules.
    by rewrite (extends_description_lines (fun n d => n +:+ " - " +:+ d) s s').
  - unfold describeAllMarkdown, bind.
    rewrite !describeAllMarkdown_result_spec by done. simpl.
    unfold variable_lines_markdown, rule_lines. rewrite Hkeys, Hrules.
    by rewrite (extends_description_lines
                  (fun n d => "**" +:+ n +:+ "** - " +:+ d) s s').
Qed.

(** ** Rules *)

(** X14.  [registerPostValidation] returns without running the check.  The
    new rule is the last one: the next [validate()] makes the calls it
    would have made and then calls the new check, and the message of the
    new check, if it throws, is the last of the failing rules. *)
Theorem registerPostValidation_adds_last_check s d (c : PostValidator) :
  wf s →
  let s' := (registerPostValidation d c s).2 in
  (registerPostValidation d c s).1 = Normal tt ∧
  log s' = log s ∧
  failing_rules s' =
    failing_rules s ++
    match c (env s) with
    | Normal _ => []
    | Throw msg => [msg]
    end ∧
  log (validate s').2 = log (validate s).2 ++ [CheckCall d].
Proof.
  intros Hwf s'. split_and!; [done|done| |].
  - unfold failing_rules. simpl. rewrite omap_app. simpl.
    unfold rule_failure at 2. simpl. by destruct (c (env s)).
  - rewrite !validate_log by done. simpl. rewrite map_app. simpl.
    by rewrite <- !app_assoc.
Qed.

(** ** Validating again *)

Lemma validate_passes_bindings s :
  wf s →
  (validate s).1 = Normal tt ↔
  (∀ n e, binding s n = Some e → ∃ v, outcome (env s) e = Normal v) ∧
  (∀ r, r ∈ postValidations s → rule_validator r (env s) = Normal tt).
Proof.
  intros Hwf. rewrite validate_result by done.
  rewrite <- failing_rules_nil_iff, <- failing_variables_nil by done.
  destruct (truthy (report _ _)) eqn:Htruthy.
  - split; [done|]. intros Hnil. apply report_truthy in Hnil. congruence.
  - by apply report_truthy in Htruthy.
Qed.

Lemma outcome_settle_other ρ ρ' e :
  (∃ v, outcome ρ' (settle ρ e) = Normal v) ↔
  (∃ v, outcome ρ e = Normal v) ∨ (∃ v, outcome ρ' e = Normal v).
Proof.
  unfold outcome, settle. destruct (cache e) eqn:Hc.
  - destruct (validator e (ρ (name e))) as [x|msg] eqn:Hv; simpl.
    + split; eauto.
    + rewrite Hc. split; [eauto|]. by intros [[v [=]]|?].
  - rewrite Hc. split; eauto.
Qed.

(** X15.  After a [validate()], a further [validate()] under a new
    environment returns normally exactly when every check returns under
    the new environment and every registered binding either could be read
    before or can be read now: a binding that passed is not validated
    again, a binding that failed is validated against the new
    environment. *)
Theorem revalidate_passes_iff s ρ' :
  wf s →
  (validate (with_env ρ' (validate s).2)).1 = Normal tt ↔
  (∀ n e, binding s n = Some e →
          (∃ v, outcome (env s) e = Normal v) ∨ (∃ v, outcome ρ' e = Normal v)) ∧
  (∀ r, r ∈ postValidations s → rule_validator r ρ' = Normal tt).
Proof.
  intros Hwf. pose proof (validate_wf s Hwf) as Hwf1.
  destruct (validate_frame s) as (_ & _ & Hrules & _).
  assert (wf (with_env ρ' (validate s).2)) as Hwf2 by done.
  rewrite validate_passes_bindings by done. simpl. rewrite Hrules.
  apply and_iff_compat_r. split.
  - intros Hok n e Hb. apply outcome_settle_other. apply (Hok n).
    change (binding (with_env ρ' (validate s).2) n)
      with (binding (validate s).2 n).
    by rewrite validate_bindings, Hb.
  - intros Hok n e2.
    change (binding (with_env ρ' (validate s).2) n)
      with (binding (validate s).2 n).
    rewrite validate_bindings by done.
    destruct (binding s n) as [e|] eqn:Hb; [|done]. intros [= <-].
    apply outcome_settle_other. by apply (Hok n).
Qed.

(** X16.  Reading the value of an [Envar] touches that object only: the
    environment, the registered names, the rules and every other [Envar]
    are the same afterwards. *)
Theorem value_touches_only_itself s a :
  env (Envar_value a s).2 = env s ∧
  registeredVariables (Envar_value a s).2 = registeredVariables s ∧
  postValidations (Envar_value a s).2 = postValidations s ∧
  (∀ b, b ≠ a → envars (Envar_value a s).2 !! b = envars s !! b).
Proof.
  rewrite Envar_value_store. destruct (envars s !! a) as [e|]; [|done].
  split_and!; [done..|]. intros b Hb. simpl. by rewrite list_lookup_insert_ne.
Qed.

Lemma bindings_Forall s (P : @Envar T → Prop) :
  Forall (fun ka => from_option P True (envars s !! ka.2)) (registeredVariables s) →
  ∀ n e, binding s n = Some e → P e.
Proof.
  intros Hall n e (a & Hn%lookup_own_Some & Ha)%binding_Some.
  rewrite Forall_forall in Hall. specialize (Hall _ Hn). simpl in Hall.
  by rewrite Ha in Hall.
Qed.

End Further.

(** * The further properties at the example stores *)

Lemma rules_only_wf : wf rules_only.
Proof.
  apply reachable_wf. exists readme_env,
    [CallRegister "SOME_VARIABLE" str_validator "a string";
     CallRegisterPostValidation "never" (fun _ => Throw "never holds")].
  reflexivity.
Qed.

(** X2 at the README: a sixth registration. *)
Lemma register_creates_binding_readme :
  (register "PORT" str_validator "a port" readme).1 = Normal 5 ∧
  registration_order (register "PORT" str_validator "a port" readme).2 =
    ["CORRECT_URL"; "WRONG_URL"; "V@R1ABL3"; "SOME_VARIABLE";
     "SOME_OTHER_VARIABLE"; "PORT"].
Proof.
  assert ((register "PORT" str_validator "a port" readme).1 = Normal 5) as H
    by reflexivity.
  split; [exact H|].
  destruct (register_creates_binding readme "PORT" str_validator "a port" 5 H)
    as (_ & _ & _ & Horder & _).
  exact Horder.
Defined.

(** X3 at the README: [WRONG_URL] cannot be registered again. *)
Lemma register_registered_name_rejected_readme :
  "WRONG_URL" ∈ registration_order readme ∧
  register "WRONG_URL" str_validator "again" readme =
    (Throw "Variable WRONG_URL already defined!", readme).
Proof.
  assert ("WRONG_URL" ∈ registration_order readme) as H by (right; left).
  split; [exact H|].
  exact (register_registered_name_rejected readme "WRONG_URL" str_validator
           "again" H).
Defined.

(** X4 at the README: registering [PORT], which is not set, and reading it. *)
Lemma register_then_value_readme :
  (register "PORT" str_validator "a port" readme).1 = Normal 5 ∧
  (Envar_value 5 (register "PORT" str_validator "a port" readme).2).1 =
    Throw "PORT - value is null or undefined".
Proof.
  assert ((register "PORT" str_validator "a port" readme).1 = Normal 5) as H
    by reflexivity.
  split; [exact H|].
  exact (proj1 (register_then_value readme "PORT" str_validator "a port" 5 H)).
Defined.

(** X5 at the README: [CORRECT_URL] stays the first registered object. *)
Lemma registrations_are_permanent_readme :
  lookup_own (registeredVariables readme) "CORRECT_URL" = Some 0 ∧
  lookup_own
    (registeredVariables
       (foldl (fun s c => call c s) readme
          [CallValidate; CallRegister "PORT" str_validator "a port";
           CallValue 0; CallRegister "CORRECT_URL" str_validator "again"]))
    "CORRECT_URL" = Some 0.
Proof.
  split; [reflexivity|].
  exact (proj1 (registrations_are_permanent
                  [CallValidate; CallRegister "PORT" str_validator "a port";
                   CallValue 0; CallRegister "CORRECT_URL" str_validator "again"]
                  readme "CORRECT_URL" 0 eq_refl)).
Defined.

(** X6 at the README: the first object keeps its fields through a
    validation pass and a change of the environment. *)
Lemma envar_is_stable_readme :
  envars readme !! 0 =
    Some {| name := "CORRECT_URL"; validator := url_validator;
            description := "a url"; cache := empty |} ∧
  ∃ e', envars (foldl (fun s c => call c s) readme
                  [CallValidate; CallSetEnv (fun _ => None); CallValidate])
          !! 0 = Some e' ∧
        name e' = "CORRECT_URL" ∧ validator e' = url_validator ∧
        description e' = "a url".
Proof.
  split; [reflexivity|].
  destruct (envar_is_stable [CallValidate; CallSetEnv (fun _ => None); CallValidate]
              readme 0 _ eq_refl) as (e' & He' & Hn & Hv & Hd & _).
  exists e'. repeat split; assumption.
Defined.

(** X7 at the README: two variables cannot be read, so [validate()] does
    not return. *)
Lemma validate_passes_iff_readme :
  wf readme ∧ (validate readme).1 ≠ Normal tt.
Proof.
  split; [exact readme_wf|]. intros Hpass.
  destruct (proj1 (validate_passes_iff readme readme_wf) Hpass) as [Hread _].
  destruct (Hread "WRONG_URL" 1 eq_refl) as [v Hv]. discriminate Hv.
Defined.

(** X8 at a registry whose only failure is a rule. *)
Lemma validate_rules_only_report_witness :
  wf rules_only ∧
  (validate rules_only).1 =
    Throw (nl +:+ nl +:+ "The following validation rules are invalid:" +:+
           nl +:+ nl +:+ "never holds").
Proof.
  split; [exact rules_only_wf|].
  refine (validate_rules_only_report rules_only
            {| rule_description := "never";
               rule_validator := fun _ => Throw "never holds" |}
            "never holds" rules_only_wf _ _ eq_refl).
  - apply bindings_Forall.
    apply Forall_cons_2; [by eexists | apply Forall_nil_2].
  - left.
Defined.

(** X9 at the README with two rules. *)
Lemma validate_twice_readme_rules :
  wf readme_rules ∧
  (validate (validate readme_rules).2).1 = (validate readme_rules).1 ∧
  log (validate (validate readme_rules).2).2 =
    log (validate readme_rules).2 ++
    [EnvLookup "WRONG_URL"; ValidatorCall "WRONG_URL" (Some "htttps://google.com");
     EnvLookup "V@R1ABL3"; ValidatorCall "V@R1ABL3" None;
     CheckCall "an https URL"; CheckCall "either URL is set"].
Proof.
  split; [exact readme_rules_wf|].
  exact (validate_twice readme_rules readme_rules_wf).
Defined.

(** X10 at the README: [CORRECT_URL] after [validate()], with the
    environment emptied. *)
Lemma validate_caches_successes_readme :
  wf readme ∧
  Envar_value 0 (with_env (fun _ => None) (validate readme).2) =
    (Normal "https://google.com", with_env (fun _ => None) (validate readme).2).
Proof.
  split; [exact readme_wf|].
  exact (validate_caches_successes readme "CORRECT_URL" 0 _ "https://google.com"
           readme_wf eq_refl eq_refl eq_refl
           (with_env (fun _ => None) (validate readme).2) eq_refl).
Defined.

(** X12 at the README: reads, a validation pass and a new environment. *)
Lemma describe_changes_only_by_registration_readme :
  wf readme ∧
  (describeAll compare_code_units
     (foldl (fun s c => call c s) readme
        [CallValue 1; CallValidate; CallSetEnv (fun _ => None)])).1 =
  (describeAll compare_code_units readme).1.
Proof.
  split; [exact readme_wf|].
  exact (proj1 (describe_changes_only_by_registration compare_code_units
                  [CallValue 1; CallValidate; CallSetEnv (fun _ => None)]
                  readme readme_wf eq_refl eq_refl)).
Defined.

(** X14 at the README. *)
Lemma registerPostValidation_adds_last_check_readme :
  wf readme ∧
  log (validate (registerPostValidation "never" (fun _ => Throw "never holds")
                   readme).2).2 =
    log (validate readme).2 ++ [CheckCall "never"].
Proof.
  split; [exact readme_wf|].
  destruct (registerPostValidation_adds_last_check readme "never"
              (fun _ => Throw "never holds") readme_wf) as (_ & _ & _ & Hlog).
  exact Hlog.
Defined.

(** X15 at the README: once [WRONG_URL] and [V@R1ABL3] are set properly the
    next pass returns, although [CORRECT_URL] is no longer set. *)
Lemma revalidate_passes_iff_readme :
  let ρ' := fun n => if decide (n = "WRONG_URL") then Some "https://google.com"
                     else if decide (n = "V@R1ABL3") then Some "now set"
                     else None in
  wf readme ∧ (validate (with_env ρ' (validate readme).2)).1 = Normal tt.
Proof.
  intros ρ'. split; [exact readme_wf|].
  apply (revalidate_passes_iff readme ρ' readme_wf). split.
  - apply bindings_Forall.
    repeat (apply Forall_cons_2;
              [simpl; first [by left; eexists | by right; eexists]|]).
    apply Forall_nil_2.
  - intros r Hr. by apply elem_of_nil in Hr.
Defined.
